(** * HigherMathInvestigations: class numbers and sparse polynomials

  A shallow embedding of [class_number.py] and [polynomial.py].

  - Python [int] is [Z]; Python [float] is IEEE-754 binary64, taken from
    the Standard Library's [SpecFloat] ([prec = 53], [emax = 1024]).
  - A raised exception is the [Err] branch of [result]; stateful code
    runs in a small state-and-exception monad over a heap of objects.
  - [dict] is an insertion-ordered association list with unique keys. *)

From Stdlib Require Import ZArith Bool String List Lia.
From Stdlib Require Import Floats.SpecFloat.
From Stdlib Require Import Sorting.Sorted.
From Stdlib Require Import DecimalString.
Import ListNotations.
Open Scope Z_scope.

(** ** Python values shared by both files *)

Module Py.

(** The exception classes the two files can raise. [SystemError] stands
    for a dangling reference, which no Python program can build. *)
Inductive exn :=
| AssertionError | TypeError | ValueError | OverflowError
| AttributeError | NotImplementedError | Warning | SystemError.

Inductive result (A : Type) :=
| Ok (a : A)
| Err (e : exn).
Arguments Ok {A} a.
Arguments Err {A} e.

Definition rbind {A B} (r : result A) (k : A -> result B) : result B :=
  match r with Ok a => k a | Err e => Err e end.

Definition ref := nat.
Bind Scope nat_scope with ref.

(** What a variable can hold: a number, a reference to a heap object, or
    an exception instance handled as an ordinary value. *)
Inductive pyval :=
| VInt (z : Z)
| VFloat (f : spec_float)
| VRef (r : ref)
| VExc (e : exn).

(** [range(lo, hi)] *)
Definition range (lo hi : Z) : list Z :=
  map (fun i => lo + Z.of_nat i) (seq 0 (Z.to_nat (hi - lo))).

End Py.

(** ** class_number.py *)

Module ClassNumber.
Import Py.

(** [int(x ** 0.5)] for an integral [x >= 0]: the double-precision power
    followed by truncation is taken as the exact integer square root.
    Doubles represent every integer below [2^53] exactly, so the two
    agree on all inputs the script feeds ([D < 170]); rounding and the
    finite range of doubles on huge inputs are not modelled. *)
Definition int_sqrt (x : Z) : Z := Z.sqrt x.

(** [factors_of_n(n)]: two asserts, then the divisor loop over
    [range(2, int(n**0.5)+1)] appending to [ls_out]. *)
Definition factors_of_n (n : pyval) : result (list (Z * Z)) :=
  match n with
  | VInt n =>
      if n >? -1 then
        Ok (fold_left
              (fun ls_out i =>
                 if n mod i =? 0 then ls_out ++ [(i, n / i)] else ls_out)
              (range 2 (int_sqrt n + 1))
              [(1, n)])
      else Err AssertionError
  | _ => Err AssertionError
  end.

(** [int((D / 3) ** 0.5)]. For [D < 0] the quotient is a negative float,
    its power [0.5] is a complex number, and [int()] rejects a complex
    argument with a [TypeError]. For [D >= 0] the floor of the square
    root of the real [D/3] is the integer square root of [D // 3]. *)
Definition abs_b_max_of (D : Z) : result Z :=
  if D <? 0 then Err TypeError else Ok (int_sqrt (D / 3)).

(** One line of the diagnostic output printed under [debug]. *)
Inductive line :=
| MaxAbsB (b : Z)
| Triple (b a c : Z).

(** Loop state of [get_class_number]: the counter and what was printed. *)
Definition cn_state := (Z * list line)%type.

(** The inner loop [for fac_tup in ls_fac]. *)
Definition count_pairs (debug : bool) (b : Z) (ls_fac : list (Z * Z))
           (st : cn_state) : cn_state :=
  fold_left
    (fun (st : cn_state) (fac_tup : Z * Z) =>
       let '(count, out) := st in
       if (fst fac_tup >=? b) && (snd fac_tup >=? b)
       then (count + 1,
             if debug then out ++ [Triple b (fst fac_tup) (snd fac_tup)]
             else out)
       else st)
    ls_fac st.

(** One iteration of [for b in range(abs_b_max + 1)]. *)
Definition step_b (D : Z) (debug : bool) (st : result cn_state) (b : Z)
  : result cn_state :=
  rbind st (fun st =>
    let b2 := b ^ 2 in
    let temp := b2 + D in
    if negb (temp mod 4 =? 0) then Ok st
    else
      let temp := temp / 4 in
      rbind (factors_of_n (VInt temp)) (fun ls_fac =>
        Ok (count_pairs debug b ls_fac st))).

(** [get_class_number(D, debug)]: the returned count together with the
    lines printed on the way. *)
Definition get_class_number (D : Z) (debug : bool) : result cn_state :=
  rbind (abs_b_max_of D) (fun abs_b_max =>
    let out := if debug then [MaxAbsB abs_b_max] else [] in
    fold_left (step_b D debug) (range 0 (abs_b_max + 1)) (Ok (0, out))).

(** What the caller receives: [return count]. *)
Definition returned_count (r : result cn_state) : result Z :=
  rbind r (fun st => Ok (fst st)).

(** *** Closed forms of the loops, used to reason about them *)

(** The pairs appended by the loop body over a list of candidates. *)
Definition divisor_pairs (n : Z) (cands : list Z) : list (Z * Z) :=
  map (fun i => (i, n / i)) (filter (fun i => n mod i =? 0) cands).

(** Number of pairs passing the test [a >= b and c >= b]. *)
Definition reduced_pairs (b : Z) (ls_fac : list (Z * Z)) : Z :=
  Z.of_nat
    (length (filter (fun t => (fst t >=? b) && (snd t >=? b)) ls_fac)).

(** What one value of [b] adds to the counter. *)
Definition contribution (D b : Z) : Z :=
  let temp := b ^ 2 + D in
  if negb (temp mod 4 =? 0) then 0
  else reduced_pairs b
         ((1, temp / 4) :: divisor_pairs (temp / 4)
                             (range 2 (int_sqrt (temp / 4) + 1))).

End ClassNumber.


(** ** polynomial.py *)

Module Polynomial.
Import Py.

(** *** Numbers: Python [int] and [float] *)

Definition prec : Z := 53.
Definition emax : Z := 1024.

Inductive num :=
| PInt (z : Z)
| PFloat (f : spec_float).

(** [float(z)], rounding to nearest even; a too large [int] raises. *)
Definition float_of_int (z : Z) : result spec_float :=
  match binary_normalize prec emax z 0 false with
  | S754_infinity _ => Err OverflowError
  | f => Ok f
  end.

(** A binary arithmetic operator: exact on two ints, otherwise the int
    operand is converted and the float operation is used. *)
Definition arith (zop : Z -> Z -> Z)
           (fop : spec_float -> spec_float -> spec_float)
           (a b : num) : result num :=
  match a, b with
  | PInt x, PInt y => Ok (PInt (zop x y))
  | PFloat x, PFloat y => Ok (PFloat (fop x y))
  | PInt x, PFloat y =>
      rbind (float_of_int x) (fun fx => Ok (PFloat (fop fx y)))
  | PFloat x, PInt y =>
      rbind (float_of_int y) (fun fy => Ok (PFloat (fop x fy)))
  end.

Definition num_add : num -> num -> result num := arith Z.add (SFadd prec emax).
Definition num_sub : num -> num -> result num := arith Z.sub (SFsub prec emax).
Definition num_mul : num -> num -> result num := arith Z.mul (SFmul prec emax).

(** Magnitude of a finite float with mantissa [m] and exponent [e],
    truncated to an integer. *)
Definition trunc_magnitude (m : positive) (e : Z) : Z :=
  if 0 <=? e then Zpos m * 2 ^ e else Zpos m / 2 ^ (- e).

(** A finite float is whole-valued when no bit lies below the unit. *)
Definition whole_magnitude (m : positive) (e : Z) : bool :=
  (0 <=? e) || (Zpos m mod 2 ^ (- e) =? 0).

(** The integer a float is equal to, when there is one. *)
Definition float_integral (f : spec_float) : option Z :=
  match f with
  | S754_zero _ => Some 0
  | S754_finite s m e =>
      if whole_magnitude m e then Some (cond_Zopp s (trunc_magnitude m e))
      else None
  | S754_infinity _ | S754_nan => None
  end.

(** [a == b] on numbers; an int and a float are compared exactly. *)
Definition num_eqb (a b : num) : bool :=
  match a, b with
  | PInt x, PInt y => x =? y
  | PFloat x, PFloat y => SFeqb x y
  | PInt x, PFloat y | PFloat y, PInt x =>
      match float_integral y with
      | Some v => x =? v
      | None => false
      end
  end.

(** [int(c)]: truncation towards zero; infinities and NaN raise. *)
Definition int_of (c : num) : result Z :=
  match c with
  | PInt z => Ok z
  | PFloat (S754_zero _) => Ok 0
  | PFloat (S754_finite s m e) => Ok (cond_Zopp s (trunc_magnitude m e))
  | PFloat (S754_infinity _) => Err OverflowError
  | PFloat S754_nan => Err ValueError
  end.

(** [c != 0] *)
Definition nonzero (c : num) : bool := negb (num_eqb c (PInt 0)).

(** [int(c) if int(c) == c else c] *)
Definition coerce (c : num) : result num :=
  rbind (int_of c) (fun z => Ok (if num_eqb (PInt z) c then PInt z else c)).

(** [isinstance(other, (int, float))], with the number when it holds. *)
Definition as_number (other : pyval) : option num :=
  match other with
  | VInt z => Some (PInt z)
  | VFloat f => Some (PFloat f)
  | VRef _ | VExc _ => None
  end.

(** *** Dictionaries *)

(** Exponent-to-coefficient entries in insertion order. *)
Definition dict := list (Z * num).

Fixpoint dict_get (d : dict) (k : Z) : option num :=
  match d with
  | [] => None
  | (k', v) :: d' => if k' =? k then Some v else dict_get d' k
  end.

(** [d.get(k, dflt)] *)
Definition dict_get_default (d : dict) (k : Z) (dflt : num) : num :=
  match dict_get d k with Some v => v | None => dflt end.

(** [d[k] = v]: an existing key keeps its place, a new one goes last. *)
Fixpoint dict_set (d : dict) (k : Z) (v : num) : dict :=
  match d with
  | [] => [(k, v)]
  | (k', v') :: d' =>
      if k' =? k then (k', v) :: d' else (k', v') :: dict_set d' k v
  end.

(** [a == b] on dictionaries: same size, and every entry of [a] has an
    equal value under the same key in [b]. *)
Definition dict_eqb (a b : dict) : bool :=
  (length a =? length b)%nat
  && forallb (fun pc => match dict_get b (fst pc) with
                        | Some w => num_eqb (snd pc) w
                        | None => false
                        end) a.

(** A comprehension [{p: f(c) for p, c in d.items()}] whose body may raise. *)
Fixpoint map_items (f : num -> result num) (d : dict) : result dict :=
  match d with
  | [] => Ok []
  | (p, c) :: d' =>
      rbind (f c) (fun c' =>
      rbind (map_items f d') (fun r => Ok ((p, c') :: r)))
  end.

(** [set(keys) - {0}] *)
Definition keys_but_zero (d : dict) : list Z :=
  filter (fun k => negb (k =? 0)) (nodup Z.eq_dec (map fst d)).

(** *** The heap *)

(** An instance of [BasicPolynomial]: its two attributes, unset until
    [__init__] assigns them. [dc_powers] refers to a dictionary object. *)
Record instance := {
  attr_v : option string;
  attr_dc_powers : option ref
}.

Inductive obj :=
| ODict (items : dict)
| OInst (i : instance).

Definition heap := list obj.

(** Computations that read and write the heap and may raise. *)
Definition M (A : Type) := heap -> result A * heap.

Definition ret {A} (a : A) : M A := fun h => (Ok a, h).

Definition raise {A} (e : exn) : M A := fun h => (Err e, h).

Definition bind {A B} (c : M A) (k : A -> M B) : M B :=
  fun h => match c h with
           | (Ok a, h') => k a h'
           | (Err e, h') => (Err e, h')
           end.

Notation "x <- c ;; k" := (bind c (fun x => k))
  (at level 61, c at next level, right associativity).
Notation "c ;; k" := (bind c (fun _ => k))
  (at level 61, right associativity).

Definition lift {A} (r : result A) : M A :=
  match r with Ok a => ret a | Err e => raise e end.

Definition alloc (o : obj) : M ref := fun h => (Ok (length h), h ++ [o]).

Definition load (r : ref) : M obj :=
  fun h => match nth_error h r with
           | Some o => (Ok o, h)
           | None => (Err SystemError, h)
           end.

Fixpoint update (h : heap) (r : ref) (o : obj) : heap :=
  match h, r with
  | [], _ => []
  | _ :: h', O => o :: h'
  | x :: h', S r' => x :: update h' r' o
  end.

Definition store (r : ref) (o : obj) : M unit := fun h => (Ok tt, update h r o).

Fixpoint for_each {A} (l : list A) (body : A -> M unit) : M unit :=
  match l with
  | [] => ret tt
  | x :: l' => body x ;; for_each l' body
  end.

(** **** Attribute access *)

Definition get_instance (r : ref) : M instance :=
  o <- load r ;;
  match o with
  | OInst i => ret i
  | ODict _ => raise AttributeError
  end.

(** [r.v] *)
Definition getattr_v (r : ref) : M string :=
  i <- get_instance r ;;
  match attr_v i with Some s => ret s | None => raise AttributeError end.

(** [r.dc_powers] *)
Definition getattr_dc_powers (r : ref) : M ref :=
  i <- get_instance r ;;
  match attr_dc_powers i with Some d => ret d | None => raise AttributeError end.

(** [r.v = s] *)
Definition setattr_v (r : ref) (s : string) : M unit :=
  i <- get_instance r ;;
  store r (OInst {| attr_v := Some s; attr_dc_powers := attr_dc_powers i |}).

(** [r.dc_powers = d] *)
Definition setattr_dc_powers (r : ref) (d : ref) : M unit :=
  i <- get_instance r ;;
  store r (OInst {| attr_v := attr_v i; attr_dc_powers := Some d |}).

(** [other.v] and [other.dc_powers] for an arbitrary value: numbers and
    exception instances have neither attribute. *)
Definition attr_v_of (other : pyval) : M string :=
  match other with VRef r => getattr_v r | _ => raise AttributeError end.

Definition attr_dc_powers_of (other : pyval) : M ref :=
  match other with VRef r => getattr_dc_powers r | _ => raise AttributeError end.

(** **** Dictionary objects *)

(** The entries of the dictionary at [r]; [e] is raised when the object
    there is not a dictionary. *)
Definition load_dict (e : exn) (r : ref) : M dict :=
  o <- load r ;;
  match o with
  | ODict d => ret d
  | OInst _ => raise e
  end.

(** [r.items()], read once when a loop over it starts. *)
Definition dict_items (r : ref) : M dict := load_dict AttributeError r.

(** [r.copy()] *)
Definition dict_copy (r : ref) : M ref :=
  d <- load_dict AttributeError r ;; alloc (ODict d).

(** [r.get(k, dflt)] *)
Definition dict_get_at (r : ref) (k : Z) (dflt : num) : M num :=
  d <- load_dict AttributeError r ;; ret (dict_get_default d k dflt).

(** [r[k] = v] *)
Definition dict_setitem (r : ref) (k : Z) (v : num) : M unit :=
  d <- load_dict TypeError r ;; store r (ODict (dict_set d k v)).

(** *** class BasicPolynomial *)

Definition __init__ (self : ref) (dc_powers : ref) (v : string) : M unit :=
  setattr_v self v ;;
  items <- dict_items dc_powers ;;
  d <- alloc (ODict (filter (fun pc => nonzero (snd pc)) items)) ;;
  setattr_dc_powers self d ;;
  d <- getattr_dc_powers self ;;
  items <- dict_items d ;;
  items' <- lift (map_items coerce items) ;;
  d' <- alloc (ODict items') ;;
  setattr_dc_powers self d'.

(** The call [BasicPolynomial(dc_powers, v)]: a blank instance is
    created, then initialised. *)
Definition BasicPolynomial (dc_powers : ref) (v : string) : M ref :=
  self <- alloc (OInst {| attr_v := None; attr_dc_powers := None |}) ;;
  __init__ self dc_powers v ;;
  ret self.

(** The loop [for p, c in items: dc[p] = dc.get(p, 0) op c]. *)
Definition merge_loop (op : num -> num -> result num)
           (dc : ref) (items : dict) : M unit :=
  for_each items (fun pc =>
    old <- dict_get_at dc (fst pc) (PInt 0) ;;
    new <- lift (op old (snd pc)) ;;
    dict_setitem dc (fst pc) new).

(** The common body of [__add__] and [__sub__], which differ in the
    operator applied to [dc.get(p, 0)] and [c] only. *)
Definition merge (op : num -> num -> result num)
           (self : ref) (other : pyval) : M ref :=
  sd <- getattr_dc_powers self ;;
  dc <- dict_copy sd ;;
  od <- attr_dc_powers_of other ;;
  items <- dict_items od ;;
  merge_loop op dc items ;;
  sv <- getattr_v self ;;
  ov <- attr_v_of other ;;
  if negb (String.eqb sv ov) then raise Warning
  else
    sv <- getattr_v self ;;
    BasicPolynomial dc sv.

Definition __add__ : ref -> pyval -> M ref := merge num_add.

Definition __sub__ : ref -> pyval -> M ref := merge num_sub.

(** [isinstance(other, BasicPolynomial)] *)
Definition is_BasicPolynomial (other : pyval) : M bool :=
  match other with
  | VRef r =>
      o <- load r ;;
      ret (match o with OInst _ => true | ODict _ => false end)
  | _ => ret false
  end.

(** The inner loop of [__mul__], for one term [(p1, c1)] of [self]. *)
Definition mul_inner_loop (dc : ref) (pc1 : Z * num) (items2 : dict) : M unit :=
  for_each items2 (fun pc2 =>
    let p := fst pc1 + fst pc2 in
    c <- lift (num_mul (snd pc1) (snd pc2)) ;;
    old <- dict_get_at dc p (PInt 0) ;;
    new <- lift (num_add c old) ;;
    dict_setitem dc p new).

(** The outer loop of [__mul__]. *)
Definition mul_loop (dc : ref) (other : pyval) (items1 : dict) : M unit :=
  for_each items1 (fun pc1 =>
    od <- attr_dc_powers_of other ;;
    items2 <- dict_items od ;;
    mul_inner_loop dc pc1 items2).

Definition __mul__ (self : ref) (other : pyval) : M ref :=
  poly <- is_BasicPolynomial other ;;
  dc <- (if poly then
           dc <- alloc (ODict []) ;;
           sd <- getattr_dc_powers self ;;
           items1 <- dict_items sd ;;
           mul_loop dc other items1 ;;
           sv <- getattr_v self ;;
           ov <- attr_v_of other ;;
           if negb (String.eqb sv ov) then raise Warning else ret dc
         else
           match as_number other with
           | Some x =>
               sd <- getattr_dc_powers self ;;
               items <- dict_items sd ;;
               items' <- lift (map_items (fun c => num_mul c x) items) ;;
               alloc (ODict items')
           | None => raise NotImplementedError
           end) ;;
  sv <- getattr_v self ;;
  BasicPolynomial dc sv.

(** [for i in range(n): ans *= self]. The class has no [__imul__], so
    each round rebinds [ans] to the result of [ans.__mul__(self)]. *)
Fixpoint repeat_mul (n : nat) (self ans : ref) : M ref :=
  match n with
  | O => ret ans
  | S n' => ans' <- __mul__ ans (VRef self) ;; repeat_mul n' self ans'
  end.

Definition __pow__ (self : ref) (power : pyval) : M pyval :=
  match power with
  | VInt power =>
      if power =? 0 then ret (VInt 1)
      else if power <? 0 then ret (VExc NotImplementedError)
      else if power =? 1 then ret (VRef self)
      else
        ans <- repeat_mul (Z.to_nat (power - 1)) self self ;;
        ret (VRef ans)
  | _ => raise NotImplementedError
  end.

Definition is_constant (self : ref) : M bool :=
  sd <- getattr_dc_powers self ;;
  items <- dict_items sd ;;
  ret (length (keys_but_zero items) =? 0)%nat.

(** The last branch compares two dictionaries; where an attribute holds
    another kind of object, which no constructor call produces, the
    default [==] of objects, identity, is used. *)
Definition __eq__ (self : ref) (other : pyval) : M bool :=
  const <- is_constant self ;;
  match (if const then as_number other else None) with
  | Some x =>
      sd <- getattr_dc_powers self ;;
      c <- dict_get_at sd 1 (PInt 0) ;;
      ret (num_eqb c x)
  | None =>
      sd <- getattr_dc_powers self ;;
      od <- attr_dc_powers_of other ;;
      a <- load sd ;;
      b <- load od ;;
      match a, b with
      | ODict a, ODict b => ret (dict_eqb a b)
      | _, _ => ret (sd =? od)%nat
      end
  end.

(** *** Building inputs *)

(** The float nearest to [m * 2^e]. *)
Definition float_lit (m e : Z) : spec_float := binary_normalize prec emax m e false.

(** A dictionary display [{p: c, ...}]: later entries overwrite earlier
    ones with the same key. *)
Definition dict_display (entries : list (Z * num)) : M ref :=
  alloc (ODict (fold_left (fun d pc => dict_set d (fst pc) (snd pc)) entries [])).

(** [BasicPolynomial({...})] with the default variable. *)
Definition poly (entries : list (Z * num)) : M ref :=
  d <- dict_display entries ;; BasicPolynomial d "x".

(** [poly_x], [poly_2] and [poly_3] of [test_custom_polynomial]. *)
Definition poly_x : M ref := poly [(1, PInt 1)].
Definition poly_2 : M ref := poly [(0, PInt 2); (1, PInt (-1)); (3, PInt 1)].
Definition poly_3 : M ref := poly [(-1, PInt (-3)); (0, PInt 2); (1, PInt (-1))].

(** The term map of the polynomial at [r], when [r] is one. *)
Definition terms_of (h : heap) (r : ref) : option dict :=
  match nth_error h r with
  | Some (OInst {| attr_dc_powers := Some d |}) =>
      match nth_error h d with
      | Some (ODict items) => Some items
      | _ => None
      end
  | _ => None
  end.

(** The variable label of the polynomial at [r]. *)
Definition label_of (h : heap) (r : ref) : option string :=
  match nth_error h r with
  | Some (OInst i) => attr_v i
  | _ => None
  end.

(** *** Closed forms of the loops, used to reason about them *)

(** [merge_loop] as a function on the entries of [dc]; on an exception
    the entries written so far are returned with it. *)
Fixpoint merge_items (op : num -> num -> result num)
         (items : dict) (dc : dict) : result unit * dict :=
  match items with
  | [] => (Ok tt, dc)
  | pc :: rest =>
      match op (dict_get_default dc (fst pc) (PInt 0)) (snd pc) with
      | Ok new => merge_items op rest (dict_set dc (fst pc) new)
      | Err e => (Err e, dc)
      end
  end.

Fixpoint mul_inner_items (pc1 : Z * num) (items2 : dict) (dc : dict)
  : result unit * dict :=
  match items2 with
  | [] => (Ok tt, dc)
  | pc2 :: rest =>
      match num_mul (snd pc1) (snd pc2) with
      | Ok c =>
          match num_add c (dict_get_default dc (fst pc1 + fst pc2) (PInt 0)) with
          | Ok new => mul_inner_items pc1 rest (dict_set dc (fst pc1 + fst pc2) new)
          | Err e => (Err e, dc)
          end
      | Err e => (Err e, dc)
      end
  end.

Fixpoint mul_items (items1 items2 : dict) (dc : dict) : result unit * dict :=
  match items1 with
  | [] => (Ok tt, dc)
  | pc1 :: rest =>
      match mul_inner_items pc1 items2 dc with
      | (Ok _, dc') => mul_items rest items2 dc'
      | (Err e, dc') => (Err e, dc')
      end
  end.

(** The entries [__init__] stores for an argument with entries [items]. *)
Definition init_items (items : dict) : result dict :=
  map_items coerce (filter (fun pc => nonzero (snd pc)) items).

(** The objects a successful [BasicPolynomial(dc, v)] adds to a heap of
    [n] objects: the instance, the pruned and the coerced dictionary. *)
Definition built (n : nat) (v : string) (items items' : dict) : heap :=
  [ OInst {| attr_v := Some v; attr_dc_powers := Some (n + 2)%nat |};
    ODict (filter (fun pc => nonzero (snd pc)) items);
    ODict items' ].

(** What is left when the coercion raises. *)
Definition half_built (n : nat) (v : string) (items : dict) : heap :=
  [ OInst {| attr_v := Some v; attr_dc_powers := Some (n + 1)%nat |};
    ODict (filter (fun pc => nonzero (snd pc)) items) ].

(** The outcome of [BasicPolynomial(dc, v)] called by a method that has
    just filled the fresh dictionary [dc], the last object of the heap. *)
Definition construct (h : heap) (v : string) (dc : dict) : result ref * heap :=
  match init_items dc with
  | Ok items' =>
      (Ok (length h + 1)%nat, h ++ ODict dc :: built (length h + 1) v dc items')
  | Err e => (Err e, h ++ ODict dc :: half_built (length h + 1) v dc)
  end.

(** The same after the comparison of the two variable labels. *)
Definition finish (h : heap) (sv ov : string) (dc : dict) : result ref * heap :=
  if String.eqb sv ov then construct h sv dc
  else (Err Warning, h ++ [ODict dc]).

(** [r] is a polynomial of the heap, with label [v] and entries [d]. *)
Definition is_poly (h : heap) (r : ref) (v : string) (d : dict) : Prop :=
  exists dr,
    nth_error h r = Some (OInst {| attr_v := Some v; attr_dc_powers := Some dr |})
    /\ nth_error h dr = Some (ODict d).

(** *** The invariant of term maps *)

(** What [__init__] leaves as a coefficient: a non-zero int, or a finite
    float that is not whole-valued. *)
Definition well_formed_coeff (c : num) : bool :=
  match c with
  | PInt z => negb (z =? 0)
  | PFloat (S754_finite _ m e) => negb (whole_magnitude m e)
  | PFloat _ => false
  end.

(** A coefficient is zero: the int [0] or one of the floats [0.0], [-0.0]. *)
Definition zero_coeff (c : num) : Prop :=
  match c with
  | PInt z => z = 0
  | PFloat (S754_zero _) => True
  | PFloat _ => False
  end.

(** A float is whole-valued when its value [m * 2^e] is an integer. *)
Definition whole_valued (f : spec_float) : Prop :=
  match f with
  | S754_zero _ => True
  | S754_finite _ m e => 0 <= e \/ (2 ^ (- e) | Zpos m)
  | S754_infinity _ | S754_nan => False
  end.

(** The two properties of a normalised term map: no coefficient is zero,
    and no coefficient is a whole-valued float. *)
Definition normalised (d : dict) : Prop :=
  Forall (fun pc =>
            ~ zero_coeff (snd pc)
            /\ forall f, snd pc = PFloat f -> ~ whole_valued f) d.

(** Neither an infinity nor a NaN. *)
Definition finite_coeff (c : num) : Prop :=
  match c with
  | PFloat (S754_infinity _) | PFloat S754_nan => False
  | _ => True
  end.

(** Unique keys, as in every Python dictionary. *)
Definition unique_keys (d : dict) : Prop := NoDup (map fst d).

(** *** Operations, as values *)

Inductive operation :=
| New (dc_powers : ref) (v : string)
| Add (self : ref) (other : pyval)
| Sub (self : ref) (other : pyval)
| Mul (self : ref) (other : pyval)
| Pow (self : ref) (power : pyval).

Definition perform (o : operation) : M pyval :=
  match o with
  | New dc v => r <- BasicPolynomial dc v ;; ret (VRef r)
  | Add self other => r <- __add__ self other ;; ret (VRef r)
  | Sub self other => r <- __sub__ self other ;; ret (VRef r)
  | Mul self other => r <- __mul__ self other ;; ret (VRef r)
  | Pow self power => __pow__ self power
  end.

(** The operations the source sends through the constructor: all but a
    power below 2. *)
Definition builds (o : operation) : bool :=
  match o with
  | Pow _ (VInt n) => 2 <=? n
  | Pow _ _ => false
  | _ => true
  end.

(** [h'] is [h] with new objects after it: nothing of [h] was changed. *)
Definition extends (h h' : heap) : Prop := exists l, h' = h ++ l.

(** [r] is an object that [h] does not have, and in [h'] it is a
    polynomial whose term map is well formed. *)
Definition new_polynomial (h h' : heap) (r : ref) : Prop :=
  (length h <= r)%nat
  /\ exists v d,
       is_poly h' r v d
       /\ Forall (fun pc => well_formed_coeff (snd pc) = true) d.

(** The invariant of a polynomial object: its term map has unique keys
    and well-formed coefficients. *)
Definition sound (h : heap) (r : ref) : Prop :=
  exists v d,
    is_poly h r v d
    /\ unique_keys d
    /\ Forall (fun pc => well_formed_coeff (snd pc) = true) d.

(** The operands of an operation satisfy the invariant; the constructor
    is handed a dictionary. *)
Definition sound_operands (h : heap) (o : operation) : Prop :=
  match o with
  | New dc _ =>
      exists items, nth_error h dc = Some (ODict items) /\ unique_keys items
  | Add self other | Sub self other =>
      sound h self /\ exists o, other = VRef o /\ sound h o
  | Mul self other =>
      sound h self
      /\ match other with VRef o => sound h o | _ => True end
  | Pow self _ => sound h self
  end.

(** A computation started on a heap of at least [n] objects leaves the
    first [n] as they are, never shrinks the heap, and returns a value
    that satisfies [Q]. *)
Definition keeps {A} (n : nat) (c : M A) (Q : A -> Prop) : Prop :=
  forall h, (n <= length h)%nat ->
    firstn n (snd (c h)) = firstn n h
    /\ (length h <= length (snd (c h)))%nat
    /\ forall a, fst (c h) = Ok a -> Q a.

(** A heap with one polynomial, [x], at reference 1. *)
Definition sample_heap : heap := snd (poly [(1, PInt 1)] []).

(** A heap with the constant polynomial [2] at reference 1. *)
Definition constant_heap : heap := snd (poly [(0, PInt 2)] []).

(** A heap with [-3/x + 0.5] at reference 1. *)
Definition mixed_heap : heap :=
  snd (poly [(-1, PInt (-3)); (0, PFloat (float_lit 1 (-1)))] []).

(** A heap with [2 + x] at reference 1 and [t + 2] at reference 5: the
    same terms, entered in another order under another label. *)
Definition twin_heap : heap :=
  snd ((d1 <- dict_display [(0, PInt 2); (1, PInt 1)] ;;
        p <- BasicPolynomial d1 "x" ;;
        d2 <- dict_display [(1, PInt 1); (0, PInt 2)] ;;
        BasicPolynomial d2 "t") []).

End Polynomial.

(** ** class_number.py: the forms that are counted *)

Module Forms.
Import Py ClassNumber.





End Forms.

(** ** polynomial.py: the remaining methods *)

Module PolynomialMore.
Import Py Polynomial.

(** [max(keys)]: the builtin raises [ValueError] on an empty sequence. *)
Definition py_max (keys : list Z) : result Z :=
  match keys with
  | [] => Err ValueError
  | k :: rest => Ok (fold_left Z.max rest k)
  end.

(** [degree(self)]: [max(self.dc_powers.keys())]. *)
Definition degree (self : ref) : M Z :=
  sd <- getattr_dc_powers self ;;
  items <- dict_items sd ;;
  lift (py_max (map fst items)).

(** The three binary operators between two polynomials. *)
Inductive binary : operation -> ref -> ref -> Prop :=
| binary_add self other : binary (Add self (VRef other)) self other
| binary_sub self other : binary (Sub self (VRef other)) self other
| binary_mul self other : binary (Mul self (VRef other)) self other.

(** *** Polynomials with integer coefficients *)

(** The integer a coefficient holds. *)
Definition zval (c : num) : Z :=
  match c with PInt z => z | PFloat _ => 0 end.

(** The coefficient of the exponent [k]: 0 when [k] is not a key. *)
Definition coeff (d : dict) (k : Z) : Z :=
  match dict_get d k with Some c => zval c | None => 0 end.

Definition all_int (d : dict) : Prop :=
  Forall (fun pc => exists z, snd pc = PInt z) d.

(** Every coefficient is a non-zero int. *)
Definition int_terms (d : dict) : Prop :=
  Forall (fun pc => exists z, snd pc = PInt z /\ z <> 0) d.

(** [r] is a polynomial with label [v] whose term map [d] has unique
    keys and non-zero int coefficients. *)
Definition int_poly (h : heap) (r : ref) (v : string) (d : dict) : Prop :=
  is_poly h r v d /\ unique_keys d /\ int_terms d.

Definition zsum (l : list Z) : Z := fold_right Z.add 0 l.

(** The coefficient of [k] in a product: the sum of [a_i * b_(k-i)] over
    the terms [(i, a_i)] of [a]. *)
Definition conv (a b : dict) (k : Z) : Z :=
  zsum (map (fun pc => zval (snd pc) * coeff b (k - fst pc)) a).

(** The value at [x] of the polynomial with term map [d]. *)
Definition value (d : dict) (x : Z) : Z :=
  zsum (map (fun pc => zval (snd pc) * x ^ fst pc) d).

(** The entries of [d] at the exponent [k], added up. *)
Definition tally (d : dict) (k : Z) : Z :=
  zsum (map (fun pc => if fst pc =? k then zval (snd pc) else 0) d).

(** Taking the entries of one exponent out of a list. *)
Definition without (k : Z) (l : dict) : dict :=
  filter (fun pc => negb (fst pc =? k)) l.

(** Scaled copies and term-by-term products of lists of terms. *)
Definition scaled (s : Z) (b : dict) : dict :=
  map (fun pc => (fst pc, PInt (s * zval (snd pc)))) b.

Definition products (a b : dict) : dict :=
  flat_map (fun pc1 =>
              map (fun pc2 => (fst pc1 + fst pc2,
                               PInt (zval (snd pc1) * zval (snd pc2)))) b) a.

(** No exponent is negative. *)
Definition nonneg_exponents (d : dict) : Prop :=
  Forall (fun pc => 0 <= fst pc) d.

(** *** Evaluation *)

(** Evaluation can raise one exception more than the rest of the class:
    a zero base under a negative exponent. *)
Inductive call_exn :=
| Raised (e : exn)
| ZeroDivisionError.

Inductive outcome (A : Type) :=
| Value (a : A)
| Raise (e : call_exn).
Arguments Value {A} a.
Arguments Raise {A} e.

Definition of_result {A} (r : result A) : outcome A :=
  match r with Ok a => Value a | Err e => Raise (Raised e) end.

Definition obind {A B} (o : outcome A) (k : A -> outcome B) : outcome B :=
  match o with Value a => k a | Raise e => Raise e end.

Section Call.

(** [x ** y] on two floats: the C library's [pow] behind the
    interpreter's error checks. The library function is not correctly
    rounded, so it is a parameter of the model. *)
Variable float_pow : spec_float -> spec_float -> outcome spec_float.

(** [x ** p] for an int exponent [p]. Two ints with [p >= 0] give the
    exact int; in every other case both operands are converted to float,
    the base first. *)
Definition py_pow (x : num) (p : Z) : outcome num :=
  match x with
  | PInt z =>
      if 0 <=? p then Value (PInt (z ^ p))
      else
        obind (of_result (float_of_int z)) (fun fz =>
        obind (of_result (float_of_int p)) (fun fp =>
        obind (float_pow fz fp) (fun f => Value (PFloat f))))
  | PFloat fx =>
      obind (of_result (float_of_int p)) (fun fp =>
      obind (float_pow fx fp) (fun f => Value (PFloat f)))
  end.

(** [for p, c in items: ans += c * (x**p)] *)
Fixpoint call_loop (x : num) (items : dict) (ans : num) : outcome num :=
  match items with
  | [] => Value ans
  | (p, c) :: rest =>
      obind (py_pow x p) (fun xp =>
      obind (of_result (num_mul c xp)) (fun t =>
      obind (of_result (num_add ans t)) (fun ans' =>
      call_loop x rest ans')))
  end.

(** [self(x)] for an int or a float [x]. *)
Definition __call__ (self : ref) (x : num) (h : heap) : outcome num * heap :=
  match (sd <- getattr_dc_powers self ;; dict_items sd) h with
  | (Ok items, h') => (call_loop x items (PInt 0), h')
  | (Err e, h') => (Raise (Raised e), h')
  end.

End Call.

(** *** Printing *)








Section Str.

(** ['{}'.format(f)] for a float, the shortest decimal string that reads
    back as [f], is a parameter of the model. *)
Variable float_repr : spec_float -> string.





End Str.





(** A heap with the three polynomials of the test suite: [poly_x] at
    reference 1, [poly_2] at 5 and [poly_3] at 9, all labelled ["x"]. *)
Definition test_heap : heap :=
  snd ((x <- poly_x ;; p2 <- poly_2 ;; poly_3) []).

End PolynomialMore.

(** * Properties of class_number.py *)

Module ClassNumberProofs.
Import Py ClassNumber.

Example factors_1 : factors_of_n (VInt 1) = Ok [(1, 1)].
Proof. reflexivity. Qed.

Example factors_2 : factors_of_n (VInt 2) = Ok [(1, 2)].
Proof. reflexivity. Qed.

Example factors_4 : factors_of_n (VInt 4) = Ok [(1, 4); (2, 2)].
Proof. reflexivity. Qed.

Example factors_12 : factors_of_n (VInt 12) = Ok [(1, 12); (2, 6); (3, 4)].
Proof. reflexivity. Qed.

Example class_number_47_debug :
  get_class_number 47 true
  = Ok (3, [MaxAbsB 3; Triple 1 1 12; Triple 1 2 6; Triple 1 3 4]).
Proof. vm_compute. reflexivity. Qed.

(** ** [range] *)



(** ** The divisor loop *)

Lemma divisor_loop n cands acc :
  fold_left
    (fun ls_out i => if n mod i =? 0 then ls_out ++ [(i, n / i)] else ls_out)
    cands acc
  = acc ++ divisor_pairs n cands.
Proof.
  revert acc. induction cands as [|i cands IH]; intros acc; simpl.
  - now rewrite app_nil_r.
  - rewrite IH. unfold divisor_pairs. simpl.
    destruct (n mod i =? 0); simpl; [now rewrite <- app_assoc|reflexivity].
Qed.

Lemma factors_of_n_eq n :
  -1 < n ->
  factors_of_n (VInt n)
  = Ok ((1, n) :: divisor_pairs n (range 2 (int_sqrt n + 1))).
Proof.
  intros Hn. unfold factors_of_n.
  destruct (Z.gtb_spec n (-1)); [|lia].
  now rewrite divisor_loop.
Qed.




(** ** The class-number loops *)

Lemma reduced_pairs_nonneg b ls : 0 <= reduced_pairs b ls.
Proof. unfold reduced_pairs. lia. Qed.

Lemma count_pairs_fst debug b ls count out :
  fst (count_pairs debug b ls (count, out)) = count + reduced_pairs b ls.
Proof.
  unfold count_pairs, reduced_pairs.
  revert count out. induction ls as [|t ls IH]; intros count out; simpl.
  - lia.
  - destruct ((fst t >=? b) && (snd t >=? b)); simpl.
    + rewrite IH. lia.
    + apply IH.
Qed.

Lemma contribution_nonneg D b : 0 <= contribution D b.
Proof.
  unfold contribution. cbv zeta.
  destruct (negb _); [lia|apply reduced_pairs_nonneg].
Qed.

Lemma step_b_count D debug b count out :
  0 <= D ->
  exists out',
    step_b D debug (Ok (count, out)) b = Ok (count + contribution D b, out').
Proof.
  intros HD. unfold step_b, contribution, rbind. cbv zeta.
  destruct (negb ((b ^ 2 + D) mod 4 =? 0)).
  - exists out. f_equal. f_equal. lia.
  - rewrite factors_of_n_eq.
    + eexists. rewrite (surjective_pairing (count_pairs _ _ _ _)).
      rewrite count_pairs_fst. reflexivity.
    + assert (0 <= (b ^ 2 + D) / 4); [|lia].
      apply Z.div_pos; [|lia].
      assert (0 <= b ^ 2) by (apply Z.pow_even_nonneg; now exists 1).
      lia.
Qed.

Lemma b_loop_count D debug bs count out :
  0 <= D ->
  exists out',
    fold_left (step_b D debug) bs (Ok (count, out))
    = Ok (fold_left (fun c b => c + contribution D b) bs count, out').
Proof.
  intros HD. revert count out.
  induction bs as [|b bs IH]; intros count out; cbn [fold_left].
  - now exists out.
  - destruct (step_b_count D debug b count out HD) as [out1 ->].
    apply IH.
Qed.

Lemma sum_contributions_nonneg D bs count :
  0 <= count -> 0 <= fold_left (fun c b => c + contribution D b) bs count.
Proof.
  revert count. induction bs as [|b bs IH]; intros count Hc; simpl; [exact Hc|].
  apply IH. pose proof (contribution_nonneg D b). lia.
Qed.

(** For a non-negative argument the computation returns, and the count is
    a function of [D] alone: the [debug] flag only adds printed lines. *)
Lemma get_class_number_total D :
  0 <= D ->
  exists count,
    0 <= count /\
    forall debug, returned_count (get_class_number D debug) = Ok count.
Proof.
  intros HD.
  exists (fold_left (fun c b => c + contribution D b)
                    (range 0 (int_sqrt (D / 3) + 1)) 0).
  split; [apply sum_contributions_nonneg; lia|].
  intros debug. unfold get_class_number, abs_b_max_of.
  destruct (Z.ltb_spec D 0); [lia|]. cbn [rbind].
  destruct (b_loop_count D debug (range 0 (int_sqrt (D / 3) + 1)) 0
              (if debug then [MaxAbsB (int_sqrt (D / 3))] else []) HD)
    as [out' ->].
  reflexivity.
Qed.

(** ** The factorizer's contract *)



(** C3, as the code has it: the guard is [assert n > -1]. Every negative
    input fails the assertion; the input [0] passes it and yields the
    single pair [(1, 0)]. *)
Theorem factors_of_n_nonpositive (n : Z) :
  n <= 0 ->
  factors_of_n (VInt n) = if n =? 0 then Ok [(1, 0)] else Err AssertionError.
Proof.
  intros Hn. destruct (Z.eqb_spec n 0) as [->|Hne]; [reflexivity|].
  unfold factors_of_n. destruct (Z.gtb_spec n (-1)); [lia|reflexivity].
Qed.

Lemma factors_of_n_nonpositive_witness :
  -5 <= 0 /\ factors_of_n (VInt (-5)) = Err AssertionError.
Proof. split; [lia | apply (factors_of_n_nonpositive (-5)); lia]. Defined.

(** C3 does not hold at [n = 0]: the call returns a list. *)
Lemma factors_of_n_zero_returns :
  0 <= 0 /\ factors_of_n (VInt 0) = Ok [(1, 0)].
Proof. split; [lia | reflexivity]. Qed.

(** A non-integer argument fails the first assertion. *)
Lemma factors_of_n_non_int (v : pyval) :
  (forall z, v <> VInt z) -> factors_of_n v = Err AssertionError.
Proof. intros H. destruct v; try reflexivity. now destruct (H z). Qed.

(** ** The class-number engine *)

(** C5: for every integer [D] with [1 <= D < 170] the computation returns
    a count, the count is non-negative and is the same on every run
    (whatever the [debug] flag); at [D = 47] it is 3. *)
Theorem get_class_number_range (D : Z) :
  1 <= D < 170 ->
  exists count,
    0 <= count /\
    (forall debug, returned_count (get_class_number D debug) = Ok count) /\
    (D = 47 -> count = 3).
Proof.
  intros HD. destruct (get_class_number_total D ltac:(lia)) as (c & Hc & Hrun).
  exists c. repeat split; [exact Hc|exact Hrun|].
  intros ->. specialize (Hrun false).
  vm_compute in Hrun. now injection Hrun as <-.
Qed.

Lemma get_class_number_range_witness :
  1 <= 47 < 170 /\
  exists count,
    0 <= count /\
    (forall debug, returned_count (get_class_number 47 debug) = Ok count) /\
    (47 = 47 -> count = 3).
Proof. split; [lia | apply (get_class_number_range 47); lia]. Defined.




End ClassNumberProofs.

(** * Properties of polynomial.py *)

Module PolynomialProofs.
Import Py Polynomial.

(** ** Numbers, on examples *)

(** [3.0] is whole-valued and equal to the int [3]; [0.5] is neither. *)
Example three_is_whole : float_integral (float_lit 3 0) = Some 3.
Proof. reflexivity. Qed.

Example half_is_not_whole : float_integral (float_lit 1 (-1)) = None.
Proof. reflexivity. Qed.

Example int_eq_float : num_eqb (PInt 3) (PFloat (float_lit 3 0)) = true.
Proof. reflexivity. Qed.

(** [0.5 + 0.5 == 1], [int(-2.5) == -2], and [2**1024 * 0.5] raises. *)
Example half_plus_half :
  rbind (num_add (PFloat (float_lit 1 (-1))) (PFloat (float_lit 1 (-1))))
        (fun c => Ok (num_eqb c (PInt 1))) = Ok true.
Proof. reflexivity. Qed.

Example int_truncates : int_of (PFloat (float_lit (-5) (-1))) = Ok (-2).
Proof. reflexivity. Qed.

Example huge_int_times_float :
  num_mul (PInt (2 ^ 1024)) (PFloat (float_lit 1 (-1))) = Err OverflowError.
Proof. vm_compute. reflexivity. Qed.

(** ** The repository's own test cases *)

Example test_addition :
  fst ((x <- poly_x ;; p2 <- poly_2 ;;
        expected <- poly [(0, PInt 2); (3, PInt 1)] ;;
        s <- __add__ x (VRef p2) ;;
        __eq__ expected (VRef s)) []) = Ok true.
Proof. vm_compute. reflexivity. Qed.

Example test_subtraction :
  fst ((p3 <- poly_3 ;; s <- __sub__ p3 (VRef p3) ;; __eq__ s (VInt 0)) [])
  = Ok true.
Proof. vm_compute. reflexivity. Qed.

Example test_simple_multiplication :
  fst ((x <- poly_x ;; p2 <- poly_2 ;;
        expected <- poly [(1, PInt 2); (2, PInt (-1)); (4, PInt 1)] ;;
        s <- __mul__ x (VRef p2) ;;
        __eq__ expected (VRef s)) []) = Ok true.
Proof. vm_compute. reflexivity. Qed.

Example test_multiplication :
  fst ((p3 <- poly_3 ;; p2 <- poly_2 ;;
        expected <- poly [(-1, PInt (-6)); (0, PInt 7); (1, PInt (-4));
                          (2, PInt (-2)); (3, PInt 2); (4, PInt (-1))] ;;
        s <- __mul__ p3 (VRef p2) ;;
        __eq__ expected (VRef s)) []) = Ok true.
Proof. vm_compute. reflexivity. Qed.

Example test_power :
  fst ((x <- poly_x ;; expected <- poly [(5, PInt 1)] ;;
        s <- __pow__ x (VInt 5) ;;
        match s with
        | VRef s => __eq__ expected (VRef s)
        | _ => ret false
        end) []) = Ok true.
Proof. vm_compute. reflexivity. Qed.

(** The constructor prunes a zero and turns the float 2.0 into the int 2,
    while 0.5 stays a float. *)
Example construction_normalises :
  let out := poly [(0, PInt 0); (1, PFloat (float_lit 2 0));
                   (2, PFloat (float_lit 1 (-1)))] [] in
  terms_of (snd out) 1 = Some [(1, PInt 2); (2, PFloat (float_lit 1 (-1)))].
Proof. vm_compute. reflexivity. Qed.

(** Mismatched labels make the sum raise [Warning]. *)
Example add_mismatched_labels :
  fst ((d1 <- dict_display [(1, PInt 1)] ;; x <- BasicPolynomial d1 "x" ;;
        d2 <- dict_display [(1, PInt 1)] ;; y <- BasicPolynomial d2 "y" ;;
        __add__ x (VRef y)) []) = Err Warning.
Proof. vm_compute. reflexivity. Qed.

(** ** Running the primitives on a heap [h ++ l]

    [h] is the heap a method is entered with and [l] the objects the
    method has allocated so far. *)

Lemma nth_error_app_base (h l : heap) k :
  nth_error (h ++ l) (length h + k)%nat = nth_error l k.
Proof.
  rewrite nth_error_app2 by lia. f_equal. lia.
Qed.

Lemma nth_error_app_keep (h l : heap) r o :
  nth_error h r = Some o -> nth_error (h ++ l) r = Some o.
Proof.
  intros H. rewrite nth_error_app1; [exact H|].
  apply nth_error_Some. congruence.
Qed.

Lemma update_app_base (h l : heap) k o :
  update (h ++ l) (length h + k)%nat o = h ++ update l k o.
Proof.
  induction h as [|x h IH]; simpl; [reflexivity|]. now rewrite IH.
Qed.

Lemma alloc_app h l o :
  alloc o (h ++ l) = (Ok (length h + length l)%nat, h ++ (l ++ [o])).
Proof. unfold alloc. now rewrite length_app, app_assoc. Qed.

Lemma load_new h l k o :
  nth_error l k = Some o -> load (length h + k)%nat (h ++ l) = (Ok o, h ++ l).
Proof. intros H. unfold load. now rewrite nth_error_app_base, H. Qed.

Lemma load_old h l r o :
  nth_error h r = Some o -> load r (h ++ l) = (Ok o, h ++ l).
Proof. intros H. unfold load. now rewrite (nth_error_app_keep h l r o H). Qed.

Lemma store_new h l k o :
  store (length h + k)%nat o (h ++ l) = (Ok tt, h ++ update l k o).
Proof. unfold store. now rewrite update_app_base. Qed.

Ltac exec_step :=
  first
    [ rewrite alloc_app
    | rewrite store_new
    | erewrite load_new by reflexivity
    | erewrite load_old by eassumption
    | progress cbn [app length update fst snd attr_v attr_dc_powers
                    Nat.add negb] ].

Ltac exec := repeat exec_step.

Ltac open_monad :=
  unfold attr_v_of, attr_dc_powers_of;
  unfold getattr_v, getattr_dc_powers, setattr_v, setattr_dc_powers;
  unfold get_instance,
    dict_items, dict_copy, dict_get_at, dict_setitem, load_dict,
    lift, bind, ret, raise.

Ltac enter h :=
  match goal with
  | |- ?c h = _ =>
      replace (c h) with (c (h ++ [])) by (now rewrite app_nil_r)
  end.

(** ** The constructor *)

Lemma BasicPolynomial_run h dcr v items :
  nth_error h dcr = Some (ODict items) ->
  BasicPolynomial dcr v h
  = match init_items items with
    | Ok items' => (Ok (length h), h ++ built (length h) v items items')
    | Err e => (Err e, h ++ half_built (length h) v items)
    end.
Proof.
  intros Hd. enter h. unfold BasicPolynomial, __init__, init_items.
  open_monad. exec.
  destruct (map_items coerce _) as [items'|e]; exec;
    rewrite ?Nat.add_0_r; reflexivity.
Qed.

(** The constructor applied to the dictionary a method has just filled,
    the last object of the heap. *)
Lemma BasicPolynomial_run_last h dc v :
  BasicPolynomial (length h + 0)%nat v (h ++ [ODict dc]) = construct h v dc.
Proof.
  unfold construct.
  rewrite (BasicPolynomial_run _ _ _ dc)
    by (rewrite nth_error_app_base; reflexivity).
  rewrite length_app. cbn [length].
  destruct (init_items dc); now rewrite <- app_assoc.
Qed.

(** ** The loops, on the dictionary a method has just allocated *)

Lemma merge_loop_run op items : forall h dc,
  merge_loop op (length h + 0)%nat items (h ++ [ODict dc])
  = (fst (merge_items op items dc),
     h ++ [ODict (snd (merge_items op items dc))]).
Proof.
  induction items as [|pc rest IH]; intros h dc; [reflexivity|].
  unfold merge_loop. cbn [for_each merge_items].
  change (for_each rest _) with (merge_loop op (length h + 0)%nat rest).
  open_monad. exec.
  destruct (op _ _) as [new|e]; exec; [apply IH|reflexivity].
Qed.

Lemma mul_inner_loop_run pc1 items2 : forall h dc,
  mul_inner_loop (length h + 0)%nat pc1 items2 (h ++ [ODict dc])
  = (fst (mul_inner_items pc1 items2 dc),
     h ++ [ODict (snd (mul_inner_items pc1 items2 dc))]).
Proof.
  induction items2 as [|pc2 rest IH]; intros h dc; [reflexivity|].
  unfold mul_inner_loop. cbn [for_each mul_inner_items].
  change (for_each rest _) with (mul_inner_loop (length h + 0)%nat pc1 rest).
  open_monad. cbv zeta. exec.
  destruct (num_mul _ _) as [c|e]; exec; [|reflexivity].
  destruct (num_add _ _) as [new|e]; exec; [apply IH|reflexivity].
Qed.

Lemma mul_loop_run other ov od items2 items1 : forall h dc,
  nth_error h other = Some (OInst {| attr_v := ov; attr_dc_powers := Some od |}) ->
  nth_error h od = Some (ODict items2) ->
  mul_loop (length h + 0)%nat (VRef other) items1 (h ++ [ODict dc])
  = (fst (mul_items items1 items2 dc),
     h ++ [ODict (snd (mul_items items1 items2 dc))]).
Proof.
  induction items1 as [|pc1 rest IH]; intros h dc Ho Hod; [reflexivity|].
  unfold mul_loop. cbn [for_each mul_items].
  change (for_each rest _) with (mul_loop (length h + 0)%nat (VRef other) rest).
  open_monad. exec. rewrite mul_inner_loop_run.
  destruct (mul_inner_items pc1 items2 dc) as [[u|e] dc']; exec;
    [now apply IH|reflexivity].
Qed.

(** ** [__add__] and [__sub__] *)

Lemma merge_run op h self other sv ov sd od a b :
  nth_error h self = Some (OInst {| attr_v := Some sv; attr_dc_powers := Some sd |}) ->
  nth_error h sd = Some (ODict a) ->
  nth_error h other = Some (OInst {| attr_v := Some ov; attr_dc_powers := Some od |}) ->
  nth_error h od = Some (ODict b) ->
  merge op self (VRef other) h
  = match merge_items op b a with
    | (Ok _, dc) => finish h sv ov dc
    | (Err e, dc) => (Err e, h ++ [ODict dc])
    end.
Proof.
  intros Hs Hsd Ho Hod. enter h. unfold merge, finish.
  open_monad. exec. rewrite merge_loop_run.
  destruct (merge_items op b a) as [[u|e] dc]; exec; [|reflexivity].
  destruct (String.eqb sv ov); exec; [|reflexivity].
  apply BasicPolynomial_run_last.
Qed.

(** ** [__mul__] *)

Lemma mul_run h self other sv ov sd od a b :
  nth_error h self = Some (OInst {| attr_v := Some sv; attr_dc_powers := Some sd |}) ->
  nth_error h sd = Some (ODict a) ->
  nth_error h other = Some (OInst {| attr_v := Some ov; attr_dc_powers := Some od |}) ->
  nth_error h od = Some (ODict b) ->
  __mul__ self (VRef other) h
  = match mul_items a b [] with
    | (Ok _, dc) => finish h sv ov dc
    | (Err e, dc) => (Err e, h ++ [ODict dc])
    end.
Proof.
  intros Hs Hsd Ho Hod. enter h. unfold __mul__, is_BasicPolynomial, finish.
  open_monad. exec. rewrite (mul_loop_run other (Some ov) od b) by assumption.
  destruct (mul_items a b []) as [[u|e] dc]; exec; [|reflexivity].
  destruct (String.eqb sv ov); exec; [|reflexivity].
  apply BasicPolynomial_run_last.
Qed.

Lemma mul_scalar_run h self other x sv sd a :
  nth_error h self = Some (OInst {| attr_v := Some sv; attr_dc_powers := Some sd |}) ->
  nth_error h sd = Some (ODict a) ->
  as_number other = Some x ->
  __mul__ self other h
  = match map_items (fun c => num_mul c x) a with
    | Ok dc => construct h sv dc
    | Err e => (Err e, h)
    end.
Proof.
  intros Hs Hsd Hx. enter h. unfold __mul__, is_BasicPolynomial.
  destruct other as [z|f|r|e]; try discriminate; cbn [as_number] in *;
    injection Hx as <-; open_monad; exec;
    (destruct (map_items _ a) as [dc|e]; exec;
     [apply BasicPolynomial_run_last | now rewrite app_nil_r]).
Qed.

(** ** [__eq__] *)

Lemma is_constant_run h self lv sd a :
  nth_error h self = Some (OInst {| attr_v := lv; attr_dc_powers := Some sd |}) ->
  nth_error h sd = Some (ODict a) ->
  is_constant self h = (Ok (length (keys_but_zero a) =? 0)%nat, h).
Proof.
  intros Hs Hsd. enter h. unfold is_constant. open_monad. exec.
  now rewrite app_nil_r.
Qed.

(** Against a number, when [self] is constant. *)
Lemma eq_number_run h self lv sd a other x :
  nth_error h self = Some (OInst {| attr_v := lv; attr_dc_powers := Some sd |}) ->
  nth_error h sd = Some (ODict a) ->
  keys_but_zero a = [] ->
  as_number other = Some x ->
  __eq__ self other h = (Ok (num_eqb (dict_get_default a 1 (PInt 0)) x), h).
Proof.
  intros Hs Hsd Hc Hx. unfold __eq__, bind at 1.
  rewrite (is_constant_run h self lv sd a Hs Hsd), Hc, Hx. cbn [length Nat.eqb].
  enter h. open_monad. exec. now rewrite app_nil_r.
Qed.

(** Against another polynomial. *)
Lemma eq_poly_run h self other lv lw sd od a b :
  nth_error h self = Some (OInst {| attr_v := lv; attr_dc_powers := Some sd |}) ->
  nth_error h sd = Some (ODict a) ->
  nth_error h other = Some (OInst {| attr_v := lw; attr_dc_powers := Some od |}) ->
  nth_error h od = Some (ODict b) ->
  __eq__ self (VRef other) h = (Ok (dict_eqb a b), h).
Proof.
  intros Hs Hsd Ho Hod. unfold __eq__, bind at 1.
  rewrite (is_constant_run h self lv sd a Hs Hsd).
  replace (if (length (keys_but_zero a) =? 0)%nat
           then as_number (VRef other) else None)
    with (@None num) by (now destruct (_ =? _)%nat).
  enter h. open_monad. exec. now rewrite app_nil_r.
Qed.

(** ** Numbers *)

Lemma trunc_magnitude_pos m e :
  whole_magnitude m e = true -> 0 < trunc_magnitude m e.
Proof.
  unfold whole_magnitude, trunc_magnitude.
  destruct (Z.leb_spec 0 e) as [He|He]; cbn [orb].
  - intros _. pose proof (Z.pow_pos_nonneg 2 e ltac:(lia) He). nia.
  - intros Hm. apply Z.eqb_eq in Hm.
    pose proof (Z.pow_pos_nonneg 2 (- e) ltac:(lia) ltac:(lia)) as Hp.
    pose proof (Z.div_mod (Z.pos m) (2 ^ (- e)) ltac:(lia)) as Hd.
    rewrite Hm in Hd.
    assert (0 < Z.pos m) by lia.
    destruct (Z.ltb_spec 0 (Z.pos m / 2 ^ (- e))); [assumption|]. nia.
Qed.

Lemma cond_Zopp_nonzero s z : 0 < z -> cond_Zopp s z <> 0.
Proof. destruct s; simpl; lia. Qed.

(** What survives the pruning is coerced into a well-formed coefficient. *)
Lemma coerce_well_formed c c' :
  nonzero c = true -> coerce c = Ok c' -> well_formed_coeff c' = true.
Proof.
  unfold coerce, nonzero.
  destruct c as [z|[s|s| |s m e]]; cbn [int_of rbind num_eqb float_integral];
    try discriminate.
  - rewrite Z.eqb_refl. intros Hz [= <-]. exact Hz.
  - destruct (whole_magnitude m e) eqn:Hw.
    + rewrite Z.eqb_refl. intros _ [= <-]. cbn [well_formed_coeff].
      apply negb_true_iff, Z.eqb_neq, cond_Zopp_nonzero.
      now apply trunc_magnitude_pos.
    + intros _ [= <-]. cbn [well_formed_coeff]. now rewrite Hw.
Qed.

Lemma well_formed_not_zero c : well_formed_coeff c = true -> ~ zero_coeff c.
Proof.
  destruct c as [z|[s|s| |s m e]]; cbn [well_formed_coeff zero_coeff];
    try discriminate; auto.
  intros H ->. discriminate.
Qed.

Lemma whole_magnitude_spec m e :
  whole_magnitude m e = true <-> 0 <= e \/ (2 ^ (- e) | Zpos m).
Proof.
  unfold whole_magnitude. rewrite orb_true_iff, Z.leb_le, Z.eqb_eq.
  destruct (Z.le_gt_cases 0 e) as [He|He]; [tauto|].
  assert (Hp : 2 ^ (- e) <> 0).
  { pose proof (Z.pow_pos_nonneg 2 (- e) ltac:(lia) ltac:(lia)). lia. }
  rewrite (Z.mod_divide _ _ Hp). tauto.
Qed.

Lemma well_formed_not_whole f :
  well_formed_coeff (PFloat f) = true -> ~ whole_valued f.
Proof.
  destruct f as [s|s| |s m e]; cbn [well_formed_coeff whole_valued];
    try discriminate; auto.
  intros H Hw. apply whole_magnitude_spec in Hw.
  rewrite Hw in H. discriminate.
Qed.

(** The integer test of the code agrees with the value of the float. *)
Lemma float_integral_whole f :
  whole_valued f <-> exists z, float_integral f = Some z.
Proof.
  destruct f as [s|s| |s m e]; cbn [whole_valued float_integral].
  - split; [now exists 0|auto].
  - split; [contradiction|now intros [z Hz]].
  - split; [contradiction|now intros [z Hz]].
  - rewrite <- whole_magnitude_spec.
    destruct (whole_magnitude m e); split; try discriminate; eauto.
    now intros [z Hz].
Qed.

Lemma well_formed_finite c : well_formed_coeff c = true -> finite_coeff c.
Proof. destruct c as [z|[s|s| |s m e]]; cbn; try discriminate; auto. Qed.

(** A whole-valued float is replaced by the integer it equals. *)
Lemma coerce_whole_float f z :
  float_integral f = Some z -> coerce (PFloat f) = Ok (PInt z).
Proof.
  unfold coerce.
  destruct f as [s|s| |s m e]; cbn [float_integral int_of rbind num_eqb];
    try discriminate.
  - intros [= <-]. reflexivity.
  - destruct (whole_magnitude m e); [|discriminate].
    intros [= <-]. now rewrite Z.eqb_refl.
Qed.

(** ** Dictionaries *)

Lemma map_items_Forall (f : num -> result num) (P : num -> Prop) d : forall d',
  (forall c c', In c (map snd d) -> f c = Ok c' -> P c') ->
  map_items f d = Ok d' ->
  Forall (fun pc => P (snd pc)) d'.
Proof.
  induction d as [|[p c] d IH]; intros d' Hf; cbn [map_items].
  - intros [= <-]. constructor.
  - destruct (f c) as [c'|e] eqn:Hc; cbn [rbind]; [|discriminate].
    destruct (map_items f d) as [r|e] eqn:Hr; cbn [rbind]; [|discriminate].
    intros [= <-]. constructor.
    + apply (Hf c c'); [now left|exact Hc].
    + apply IH; [|reflexivity]. intros x x' Hin. apply Hf. now right.
Qed.

Lemma map_items_keys (f : num -> result num) d : forall d',
  map_items f d = Ok d' -> map fst d' = map fst d.
Proof.
  induction d as [|[p c] d IH]; intros d'; cbn [map_items].
  - now intros [= <-].
  - destruct (f c) as [c'|e]; cbn [rbind]; [|discriminate].
    destruct (map_items f d) as [r|e]; cbn [rbind]; [|discriminate].
    intros [= <-]. cbn. f_equal. now apply IH.
Qed.

(** The entries the constructor stores are well formed. *)
Lemma init_items_well_formed d d' :
  init_items d = Ok d' ->
  Forall (fun pc => well_formed_coeff (snd pc) = true) d'.
Proof.
  unfold init_items.
  apply (map_items_Forall coerce (fun c => well_formed_coeff c = true)).
  intros c c' Hin. apply in_map_iff in Hin. destruct Hin as ([p x] & <- & Hin).
  apply filter_In in Hin. destruct Hin as [_ Hnz].
  now apply coerce_well_formed.
Qed.

Lemma well_formed_normalised d :
  Forall (fun pc => well_formed_coeff (snd pc) = true) d -> normalised d.
Proof.
  unfold normalised. apply Forall_impl. intros [p c] H. cbn [snd] in *. split.
  - now apply well_formed_not_zero.
  - intros f ->. now apply well_formed_not_whole.
Qed.

(** ** Heaps that only grow *)

Lemma extends_lookup h h' r o :
  extends h h' -> nth_error h r = Some o -> nth_error h' r = Some o.
Proof. intros [l ->]. apply nth_error_app_keep. Qed.

Lemma is_poly_extends h h' r v d :
  extends h h' -> is_poly h r v d -> is_poly h' r v d.
Proof.
  intros He (dr & Hr & Hd). exists dr. split; eapply extends_lookup; eauto.
Qed.

Lemma length_update h : forall r o, length (update h r o) = length h.
Proof.
  induction h as [|x h IH]; intros [|r] o; cbn [update length]; auto.
Qed.

Lemma firstn_update h : forall n r o,
  (n <= r)%nat -> firstn n (update h r o) = firstn n h.
Proof.
  induction h as [|x h IH]; intros [|n] [|r] o Hr;
    cbn [update firstn]; try reflexivity; try lia.
  f_equal. apply IH. lia.
Qed.

(** ** The frame rule for the heap monad *)

Section Frame.

(** The size of the heap when the method is entered: references below
    [n] are the objects of the caller. *)
Variable n : nat.

Lemma keeps_ret {A} (a : A) (Q : A -> Prop) : Q a -> keeps n (ret a) Q.
Proof. intros HQ h Hh. cbn. repeat split; auto. now intros ? [= <-]. Qed.

Lemma keeps_raise {A} e (Q : A -> Prop) : keeps n (raise e) Q.
Proof. intros h Hh. cbn. repeat split; auto. discriminate. Qed.

Lemma keeps_bind {A B} (c : M A) (k : A -> M B) Q1 Q2 :
  keeps n c Q1 -> (forall a, Q1 a -> keeps n (k a) Q2) ->
  keeps n (x <- c ;; k x) Q2.
Proof.
  intros Hc Hk h Hh. destruct (Hc h Hh) as (Hfirst & Hlen & HQ).
  unfold bind. destruct (c h) as [[a|e] h1]; cbn [fst snd] in *.
  - destruct (Hk a (HQ a eq_refl) h1 ltac:(lia)) as (Hfirst' & Hlen' & HQ').
    repeat split; [congruence|lia|exact HQ'].
  - repeat split; [exact Hfirst|exact Hlen|discriminate].
Qed.

Lemma keeps_weaken {A} (c : M A) (Q Q' : A -> Prop) :
  keeps n c Q -> (forall a, Q a -> Q' a) -> keeps n c Q'.
Proof.
  intros Hc HQ h Hh. destruct (Hc h Hh) as (Hfirst & Hlen & Hres).
  repeat split; auto.
Qed.

Lemma keeps_lift {A} (r : result A) : keeps n (lift r) (fun _ => True).
Proof. destruct r; [now apply keeps_ret|apply keeps_raise]. Qed.

Lemma keeps_load r : keeps n (load r) (fun _ => True).
Proof.
  intros h Hh. unfold load. destruct (nth_error h r); cbn; auto.
Qed.

(** A new object gets a reference outside the caller's part. *)
Lemma keeps_alloc o : keeps n (alloc o) (fun r => (n <= r)%nat).
Proof.
  intros h Hh. unfold alloc. cbn [fst snd]. repeat split.
  - rewrite firstn_app. replace (n - length h)%nat with 0%nat by lia.
    cbn [firstn]. apply app_nil_r.
  - rewrite length_app. lia.
  - now intros a [= <-].
Qed.

(** A store is harmless when it hits an object of the callee. *)
Lemma keeps_store r o : (n <= r)%nat -> keeps n (store r o) (fun _ => True).
Proof.
  intros Hr h Hh. unfold store. cbn [fst snd]. repeat split.
  - now apply firstn_update.
  - now rewrite length_update.
Qed.

Lemma keeps_for_each {A} (l : list A) (body : A -> M unit) :
  (forall x, keeps n (body x) (fun _ => True)) ->
  keeps n (for_each l body) (fun _ => True).
Proof.
  intros Hbody. induction l as [|x l IH]; cbn [for_each].
  - now apply keeps_ret.
  - eapply keeps_bind; [apply Hbody|]. intros _ _. exact IH.
Qed.

Create HintDb frame.
#[local] Hint Resolve keeps_raise keeps_lift keeps_load keeps_alloc : frame.

Ltac frame_step :=
  lazymatch goal with
  | |- keeps _ (bind _ _) _ => eapply keeps_bind; [|intros ? ?; cbv beta in *]
  | |- keeps _ (ret _) _ => apply keeps_ret
  | |- keeps _ (raise _) _ => apply keeps_raise
  | |- keeps _ (match ?x with _ => _ end) _ => destruct x
  | |- keeps _ _ (fun _ => True) =>
      solve [eauto with frame
            | eapply keeps_weaken; [eauto with frame|auto]]
  | |- keeps _ _ _ => solve [eauto with frame]
  end.

Ltac frame := repeat frame_step; auto.

Lemma keeps_get_instance r : keeps n (get_instance r) (fun _ => True).
Proof. unfold get_instance. frame. Qed.
#[local] Hint Resolve keeps_get_instance : frame.

Lemma keeps_getattr_v r : keeps n (getattr_v r) (fun _ => True).
Proof. unfold getattr_v. frame. Qed.

Lemma keeps_getattr_dc_powers r : keeps n (getattr_dc_powers r) (fun _ => True).
Proof. unfold getattr_dc_powers. frame. Qed.
#[local] Hint Resolve keeps_getattr_v keeps_getattr_dc_powers : frame.

Lemma keeps_setattr_v r s :
  (n <= r)%nat -> keeps n (setattr_v r s) (fun _ => True).
Proof. intros Hr. unfold setattr_v. frame. now apply keeps_store. Qed.

Lemma keeps_setattr_dc_powers r d :
  (n <= r)%nat -> keeps n (setattr_dc_powers r d) (fun _ => True).
Proof. intros Hr. unfold setattr_dc_powers. frame. now apply keeps_store. Qed.

Lemma keeps_attr_v_of other : keeps n (attr_v_of other) (fun _ => True).
Proof. unfold attr_v_of. frame. Qed.

Lemma keeps_attr_dc_powers_of other :
  keeps n (attr_dc_powers_of other) (fun _ => True).
Proof. unfold attr_dc_powers_of. frame. Qed.
#[local] Hint Resolve keeps_attr_v_of keeps_attr_dc_powers_of : frame.

Lemma keeps_load_dict e r : keeps n (load_dict e r) (fun _ => True).
Proof. unfold load_dict. frame. Qed.
#[local] Hint Resolve keeps_load_dict : frame.

Lemma keeps_dict_items r : keeps n (dict_items r) (fun _ => True).
Proof. unfold dict_items. frame. Qed.

Lemma keeps_dict_copy r : keeps n (dict_copy r) (fun dc => (n <= dc)%nat).
Proof. unfold dict_copy. frame. Qed.

Lemma keeps_dict_get_at r k dflt : keeps n (dict_get_at r k dflt) (fun _ => True).
Proof. unfold dict_get_at. frame. Qed.

Lemma keeps_dict_setitem r k v :
  (n <= r)%nat -> keeps n (dict_setitem r k v) (fun _ => True).
Proof. intros Hr. unfold dict_setitem. frame. now apply keeps_store. Qed.
#[local] Hint Resolve keeps_dict_items keeps_dict_copy keeps_dict_get_at : frame.

(** [__init__] writes to [self] only. *)
Lemma keeps_init self dc v :
  (n <= self)%nat -> keeps n (__init__ self dc v) (fun _ => True).
Proof.
  intros Hs. unfold __init__. frame;
    first [now apply keeps_setattr_v | now apply keeps_setattr_dc_powers].
Qed.

Lemma keeps_BasicPolynomial dc v :
  keeps n (BasicPolynomial dc v) (fun r => (n <= r)%nat).
Proof.
  unfold BasicPolynomial.
  eapply keeps_bind; [apply keeps_alloc|]. intros self Hself.
  eapply keeps_bind; [now apply keeps_init|]. intros _ _.
  now apply keeps_ret.
Qed.
#[local] Hint Resolve keeps_BasicPolynomial : frame.

(** The loops write to [dc] only. *)
Lemma keeps_merge_loop op dc items :
  (n <= dc)%nat -> keeps n (merge_loop op dc items) (fun _ => True).
Proof.
  intros Hdc. unfold merge_loop. apply keeps_for_each. intros pc.
  frame. now apply keeps_dict_setitem.
Qed.

Lemma keeps_mul_inner_loop dc pc1 items2 :
  (n <= dc)%nat -> keeps n (mul_inner_loop dc pc1 items2) (fun _ => True).
Proof.
  intros Hdc. unfold mul_inner_loop. apply keeps_for_each. intros pc.
  cbv zeta. frame. now apply keeps_dict_setitem.
Qed.

Lemma keeps_mul_loop dc other items1 :
  (n <= dc)%nat -> keeps n (mul_loop dc other items1) (fun _ => True).
Proof.
  intros Hdc. unfold mul_loop. apply keeps_for_each. intros pc.
  frame. now apply keeps_mul_inner_loop.
Qed.

Lemma keeps_merge op self other :
  keeps n (merge op self other) (fun r => (n <= r)%nat).
Proof.
  unfold merge. frame. now apply keeps_merge_loop.
Qed.

Lemma keeps_is_BasicPolynomial other :
  keeps n (is_BasicPolynomial other) (fun _ => True).
Proof. unfold is_BasicPolynomial. frame. Qed.
#[local] Hint Resolve keeps_is_BasicPolynomial : frame.

Lemma keeps_mul self other :
  keeps n (__mul__ self other) (fun r => (n <= r)%nat).
Proof.
  unfold __mul__.
  eapply keeps_bind; [apply keeps_is_BasicPolynomial|]. intros poly _.
  eapply keeps_bind with (Q1 := fun dc => (n <= dc)%nat); [|intros dc Hdc; frame].
  destruct poly; frame. now apply keeps_mul_loop.
Qed.

(** After at least one round the loop of [__pow__] holds a new object. *)
Lemma keeps_repeat_mul k : forall self ans,
  keeps n (repeat_mul k self ans)
    (fun r => (k = 0%nat /\ r = ans) \/ (n <= r)%nat).
Proof.
  induction k as [|k IH]; intros self ans; cbn [repeat_mul].
  - apply keeps_ret. now left.
  - eapply keeps_bind; [apply keeps_mul|]. intros ans' Hans.
    eapply keeps_weaken; [apply IH|].
    intros r [[_ ->]|Hr]; right; assumption.
Qed.

End Frame.

(** ** A successful call went through the constructor *)

Lemma bind_ok {A B} (c : M A) (k : A -> M B) h b h' :
  (x <- c ;; k x) h = (Ok b, h') ->
  exists a h1, c h = (Ok a, h1) /\ k a h1 = (Ok b, h').
Proof.
  unfold bind. destruct (c h) as [[a|e] h1]; [|discriminate].
  intros H. now exists a, h1.
Qed.

Ltac invert_binds H :=
  repeat match type of H with
         | bind _ _ _ = _ =>
             let a := fresh "a" in
             let h1 := fresh "h" in
             let Hc := fresh "Hc" in
             apply bind_ok in H; destruct H as (a & h1 & Hc & H);
             cbv beta in H
         end.

Lemma load_beyond h l r :
  (length h + length l <= r)%nat -> load r (h ++ l) = (Err SystemError, h ++ l).
Proof.
  intros Hr. unfold load.
  replace (nth_error (h ++ l) r) with (@None obj); [reflexivity|].
  symmetry. apply nth_error_None. rewrite length_app. lia.
Qed.

Lemma load_first_new h o l :
  load (length h) (h ++ o :: l) = (Ok o, h ++ o :: l).
Proof.
  unfold load. rewrite <- (Nat.add_0_r (length h)) at 1.
  now rewrite nth_error_app_base.
Qed.

(** The constructor succeeds on a dictionary only. *)
Lemma BasicPolynomial_ok_dict h dc v r h' :
  BasicPolynomial dc v h = (Ok r, h') ->
  exists items, nth_error h dc = Some (ODict items).
Proof.
  assert (Hraise : (exists e hh, BasicPolynomial dc v h = (Err e, hh)) ->
                   BasicPolynomial dc v h = (Ok r, h') -> False).
  { intros (e & hh & Hr). congruence. }
  destruct (nth_error h dc) as [[items|i]|] eqn:Hd; [now exists items| |];
    intros H; exfalso; apply Hraise; [|exact H| |exact H]; clear Hraise H.
  - eexists. eexists. enter h.
    unfold BasicPolynomial, __init__; open_monad; exec. reflexivity.
  - apply nth_error_None in Hd.
    destruct (Nat.eq_dec dc (length h)) as [->|Hne];
      eexists; eexists; enter h;
      unfold BasicPolynomial, __init__; open_monad; exec.
    + rewrite load_first_new. reflexivity.
    + rewrite load_beyond by (cbn [length]; lia). reflexivity.
Qed.

(** What a successful constructor call returns is a polynomial with the
    given label and a well-formed term map. *)
Lemma BasicPolynomial_ok_poly h dc v r h' :
  BasicPolynomial dc v h = (Ok r, h') ->
  exists d,
    is_poly h' r v d /\ Forall (fun pc => well_formed_coeff (snd pc) = true) d.
Proof.
  intros H. destruct (BasicPolynomial_ok_dict h dc v r h' H) as [items Hd].
  rewrite (BasicPolynomial_run h dc v items Hd) in H.
  destruct (init_items items) as [items'|e] eqn:Hi; [|discriminate].
  injection H as <- <-. exists items'. split.
  - exists (length h + 2)%nat. unfold built. split.
    + rewrite <- (Nat.add_0_r (length h)) at 2.
      now rewrite nth_error_app_base.
    + now rewrite nth_error_app_base.
  - eapply init_items_well_formed; eassumption.
Qed.

Lemma merge_ok_constructor op self other h r h' :
  merge op self other h = (Ok r, h') ->
  exists h1 dc v, BasicPolynomial dc v h1 = (Ok r, h').
Proof.
  unfold merge. intros H. invert_binds H.
  destruct (negb _); [discriminate|]. invert_binds H. eauto.
Qed.

Lemma mul_ok_constructor self other h r h' :
  __mul__ self other h = (Ok r, h') ->
  exists h1 dc v, BasicPolynomial dc v h1 = (Ok r, h').
Proof. unfold __mul__. intros H. invert_binds H. eauto. Qed.

Lemma repeat_mul_ok_constructor n : forall self ans h r h',
  repeat_mul (S n) self ans h = (Ok r, h') ->
  exists h1 dc v, BasicPolynomial dc v h1 = (Ok r, h').
Proof.
  induction n as [|n IH]; intros self ans h r h' H;
    cbn [repeat_mul] in H; apply bind_ok in H;
    destruct H as (ans' & h1 & Hmul & H).
  - injection H as <- <-. eapply mul_ok_constructor; eauto.
  - eapply IH. exact H.
Qed.

(** Every operation that [builds] returns what a constructor call
    returned. *)
Lemma perform_ok_constructor op h val h' :
  builds op = true ->
  perform op h = (Ok val, h') ->
  exists r h1 dc v, val = VRef r /\ BasicPolynomial dc v h1 = (Ok r, h').
Proof.
  destruct op as [dc v|self other|self other|self other|self power];
    cbn [builds perform]; intros Hb H.
  - invert_binds H. injection H as <- <-. eauto 6.
  - invert_binds H. injection H as <- <-.
    destruct (merge_ok_constructor _ _ _ _ _ _ Hc) as (h1 & dc & v & Hn).
    eauto 6.
  - invert_binds H. injection H as <- <-.
    destruct (merge_ok_constructor _ _ _ _ _ _ Hc) as (h1 & dc & v & Hn).
    eauto 6.
  - invert_binds H. injection H as <- <-.
    destruct (mul_ok_constructor _ _ _ _ _ Hc) as (h1 & dc & v & Hn).
    eauto 6.
  - destruct power as [n|f|o|e]; try discriminate.
    apply Z.leb_le in Hb. unfold __pow__ in H.
    destruct (Z.eqb_spec n 0); [lia|].
    destruct (Z.ltb_spec n 0); [lia|].
    destruct (Z.eqb_spec n 1); [lia|].
    invert_binds H. injection H as <- <-.
    replace (Z.to_nat (n - 1)) with (S (Z.to_nat (n - 2))) in Hc by lia.
    destruct (repeat_mul_ok_constructor _ _ _ _ _ _ Hc) as (h1 & dc & v & Hn).
    eauto 6.
Qed.

(** The value of an operation that [builds] is a reference the caller
    did not have. *)
Lemma keeps_perform n op :
  keeps n (perform op)
    (fun val => builds op = true -> exists r, val = VRef r /\ (n <= r)%nat).
Proof.
  assert (Hwrap : forall c : M ref,
             keeps n c (fun r => (n <= r)%nat) ->
             keeps n (r <- c ;; ret (VRef r))
               (fun val => builds op = true ->
                           exists r, val = VRef r /\ (n <= r)%nat)).
  { intros c Hc. eapply keeps_bind; [exact Hc|]. intros r Hr.
    apply keeps_ret. intros _. now exists r. }
  destruct op as [dc v|self other|self other|self other|self power];
    cbn [perform]; try apply Hwrap.
  - apply keeps_BasicPolynomial.
  - apply keeps_merge.
  - apply keeps_merge.
  - apply keeps_mul.
  - unfold __pow__, builds. destruct power as [p|f|o|e]; try apply keeps_raise.
    destruct (Z.eqb_spec p 0); [apply keeps_ret; intros Hb; lia|].
    destruct (Z.ltb_spec p 0); [apply keeps_ret; intros Hb; lia|].
    destruct (Z.eqb_spec p 1); [apply keeps_ret; intros Hb; lia|].
    eapply keeps_bind; [apply keeps_repeat_mul|]. intros r Hr.
    apply keeps_ret. intros _. exists r. split; [reflexivity|].
    destruct Hr as [[Hz _]|Hr]; [lia|exact Hr].
Qed.

Lemma keeps_extends {A} (c : M A) Q h :
  keeps (length h) c Q -> extends h (snd (c h)).
Proof.
  intros Hc. destruct (Hc h (Nat.le_refl _)) as (Hfirst & _ & _).
  exists (skipn (length h) (snd (c h))).
  rewrite <- (firstn_skipn (length h) (snd (c h))) at 1.
  now rewrite Hfirst, firstn_all.
Qed.

(** ** Construction and arithmetic *)

(** C7: every polynomial produced by the constructor, by an addition, a
    subtraction, a multiplication or a power of at least 2 has a term map
    in which no coefficient is zero and no coefficient is a whole-valued
    float (such a float has been replaced by the integer it equals). *)
Theorem produced_polynomial_normalised op h val h' :
  builds op = true ->
  perform op h = (Ok val, h') ->
  exists r v d, val = VRef r /\ is_poly h' r v d /\ normalised d.
Proof.
  intros Hb Hrun.
  destruct (perform_ok_constructor op h val h' Hb Hrun)
    as (r & h1 & dc & v & -> & Hnew).
  destruct (BasicPolynomial_ok_poly _ _ _ _ _ Hnew) as (d & Hp & Hd).
  exists r, v, d. repeat split; [exact Hp|].
  now apply well_formed_normalised.
Qed.

(** C9, as the code has it: no operation changes an object that exists
    when it is called, whatever its operands are and whether it returns
    or raises; so the term map and the label of every operand stay as
    they were. Addition, subtraction, multiplication and a power of at
    least 2 return a newly allocated polynomial; power 1 returns the
    operand itself and power 0 returns the number 1. *)
Theorem operations_frame op h out h' :
  perform op h = (out, h') ->
  extends h h'
  /\ (forall r v d, is_poly h r v d -> is_poly h' r v d)
  /\ forall val, out = Ok val ->
       match op with
       | Pow self (VInt n) =>
           (n = 0 -> val = VInt 1)
           /\ (n = 1 -> val = VRef self)
           /\ (2 <= n -> exists r, val = VRef r /\ new_polynomial h h' r)
       | _ => exists r, val = VRef r /\ new_polynomial h h' r
       end.
Proof.
  intros Hrun.
  pose proof (keeps_extends _ _ h (keeps_perform (length h) op)) as Hext.
  destruct (keeps_perform (length h) op h (Nat.le_refl _)) as (_ & _ & Hfresh).
  rewrite Hrun in Hext, Hfresh. cbn [fst snd] in Hext, Hfresh.
  split; [exact Hext|]. split.
  { intros r v d. now apply is_poly_extends. }
  intros val ->.
  assert (Hnew : builds op = true ->
                 exists r, val = VRef r /\ new_polynomial h h' r).
  { intros Hb. destruct (Hfresh val eq_refl Hb) as (r & -> & Hr).
    exists r. split; [reflexivity|]. split; [exact Hr|].
    destruct (perform_ok_constructor op h (VRef r) h' Hb Hrun)
      as (r' & h1 & dc & v & [= <-] & Hc).
    destruct (BasicPolynomial_ok_poly _ _ _ _ _ Hc) as (d & Hp & Hd).
    now exists v, d. }
  destruct op as [dc v|self other|self other|self other|self power];
    try (apply Hnew; reflexivity).
  destruct power as [n|f|o|e]; try discriminate.
  repeat split.
  - intros ->. cbv in Hrun. congruence.
  - intros ->. cbv in Hrun. congruence.
  - intros Hn. apply Hnew. cbn [builds]. now apply Z.leb_le.
Qed.

(** C2 on the negative side: a negative power does not raise; the
    exception instance is handed back as the result of the call. *)
Theorem pow_negative_returns h self (p : positive) :
  __pow__ self (VInt (Z.neg p)) h = (Ok (VExc NotImplementedError), h).
Proof. reflexivity. Qed.

(** A power that is not an int raises [NotImplementedError]. *)
Lemma pow_non_int_raises h self power :
  (forall n, power <> VInt n) ->
  __pow__ self power h = (Err NotImplementedError, h).
Proof. intros H. destruct power as [n| | |]; try reflexivity. now destruct (H n). Qed.

(** ** Lookup and update of entries *)

Lemma dict_get_app_fresh pre rest k :
  ~ In k (map fst pre) -> dict_get (pre ++ rest) k = dict_get rest k.
Proof.
  induction pre as [|[k' v'] pre IH]; cbn [app map fst dict_get In];
    [reflexivity|].
  intros Hk. destruct (Z.eqb_spec k' k); [tauto|]. apply IH. tauto.
Qed.

Lemma dict_set_app_fresh pre rest k v :
  ~ In k (map fst pre) -> dict_set (pre ++ rest) k v = pre ++ dict_set rest k v.
Proof.
  induction pre as [|[k' v'] pre IH]; cbn [app map fst dict_set In];
    [reflexivity|].
  intros Hk. destruct (Z.eqb_spec k' k); [tauto|]. rewrite IH; tauto.
Qed.

Lemma dict_get_In d k v : dict_get d k = Some v -> In (k, v) d.
Proof.
  induction d as [|[k' v'] d IH]; cbn [dict_get]; [discriminate|].
  destruct (Z.eqb_spec k' k) as [->|Hne].
  - intros [= ->]. now left.
  - intros H. right. now apply IH.
Qed.

Lemma In_dict_get d k v :
  unique_keys d -> In (k, v) d -> dict_get d k = Some v.
Proof.
  unfold unique_keys.
  induction d as [|[k' v'] d IH]; cbn [map fst dict_get]; [contradiction|].
  intros Hnd [[= -> ->]|Hin].
  - now rewrite Z.eqb_refl.
  - inversion Hnd as [|? ? Hk Hnd']; subst.
    destruct (Z.eqb_spec k' k) as [->|Hne]; [|now apply IH].
    exfalso. apply Hk. apply in_map_iff. now exists (k, v).
Qed.

Lemma dict_get_key d k : In k (map fst d) <-> exists v, dict_get d k = Some v.
Proof.
  split.
  - induction d as [|[k' v'] d IH]; cbn [map fst dict_get In]; [contradiction|].
    intros [->|Hin].
    + rewrite Z.eqb_refl. now exists v'.
    + destruct (k' =? k); [now exists v'|now apply IH].
  - intros [v Hv]. apply dict_get_In in Hv. apply in_map_iff. now exists (k, v).
Qed.

(** ** The invariant is kept by every operation *)

Lemma dict_set_keys d k v x :
  In x (map fst (dict_set d k v)) -> x = k \/ In x (map fst d).
Proof.
  induction d as [|[k' v'] d IH]; cbn [dict_set map fst In].
  - intros [<-|[]]. now left.
  - destruct (k' =? k); cbn [map fst In]; [tauto|].
    intros [<-|Hin]; [tauto|]. destruct (IH Hin); tauto.
Qed.

Lemma unique_keys_dict_set d k v :
  unique_keys d -> unique_keys (dict_set d k v).
Proof.
  unfold unique_keys.
  induction d as [|[k' v'] d IH]; cbn [dict_set map fst]; intros Hnd.
  - repeat constructor. intros [].
  - inversion Hnd as [|? ? Hk Hnd']; subst.
    destruct (Z.eqb_spec k' k) as [->|Hne]; cbn [map fst];
      constructor; auto.
    intros Hin. destruct (dict_set_keys _ _ _ _ Hin); [congruence|tauto].
Qed.

Lemma unique_keys_merge_items op items : forall dc,
  unique_keys dc -> unique_keys (snd (merge_items op items dc)).
Proof.
  induction items as [|pc rest IH]; intros dc Hdc; cbn [merge_items];
    [exact Hdc|].
  destruct (op _ _); [|exact Hdc]. now apply IH, unique_keys_dict_set.
Qed.

Lemma unique_keys_mul_inner_items pc1 items2 : forall dc,
  unique_keys dc -> unique_keys (snd (mul_inner_items pc1 items2 dc)).
Proof.
  induction items2 as [|pc2 rest IH]; intros dc Hdc; cbn [mul_inner_items];
    [exact Hdc|].
  destruct (num_mul _ _); [|exact Hdc].
  destruct (num_add _ _); [|exact Hdc]. now apply IH, unique_keys_dict_set.
Qed.

Lemma unique_keys_mul_items items2 items1 : forall dc,
  unique_keys dc -> unique_keys (snd (mul_items items1 items2 dc)).
Proof.
  induction items1 as [|pc1 rest IH]; intros dc Hdc; cbn [mul_items];
    [exact Hdc|].
  pose proof (unique_keys_mul_inner_items pc1 items2 dc Hdc) as Hin.
  destruct (mul_inner_items pc1 items2 dc) as [[u|e] dc']; cbn [snd] in *;
    [now apply IH|exact Hin].
Qed.

Lemma unique_keys_filter (f : Z * num -> bool) d :
  unique_keys d -> unique_keys (filter f d).
Proof.
  unfold unique_keys. induction d as [|pc d IH]; cbn [filter map]; intros Hnd;
    [constructor|].
  inversion Hnd as [|? ? Hk Hnd']; subst.
  destruct (f pc); cbn [map]; [constructor|]; auto.
  intros Hin. apply Hk. apply in_map_iff in Hin.
  destruct Hin as (x & Hx & Hin). apply filter_In in Hin.
  apply in_map_iff. exists x. tauto.
Qed.

Lemma unique_keys_init_items d d' :
  unique_keys d -> init_items d = Ok d' -> unique_keys d'.
Proof.
  unfold init_items, unique_keys. intros Hd Hi.
  rewrite (map_items_keys _ _ _ Hi). now apply unique_keys_filter.
Qed.

Lemma construct_sound h v dc r h' :
  unique_keys dc -> construct h v dc = (Ok r, h') -> sound h' r.
Proof.
  unfold construct. intros Hdc.
  destruct (init_items dc) as [items'|e] eqn:Hi; [|discriminate].
  intros [= <- <-]. exists v, items'. split; [|split].
  - exists (length h + 1 + 2)%nat. unfold built. split.
    + now rewrite nth_error_app_base.
    + now rewrite <- Nat.add_assoc, nth_error_app_base.
  - eapply unique_keys_init_items; eassumption.
  - eapply init_items_well_formed; eassumption.
Qed.

Lemma finish_sound h sv ov dc r h' :
  unique_keys dc -> finish h sv ov dc = (Ok r, h') -> sound h' r.
Proof.
  unfold finish. destruct (String.eqb sv ov); [apply construct_sound|].
  discriminate.
Qed.

(** A sound polynomial meets the hypotheses under which subtraction and
    equality are studied below. *)
Lemma sound_finite h r :
  sound h r ->
  exists v d,
    is_poly h r v d /\ unique_keys d
    /\ Forall (fun pc => finite_coeff (snd pc)) d.
Proof.
  intros (v & d & Hp & Hu & Hd). exists v, d. repeat split; auto.
  revert Hd. apply Forall_impl. intros pc. apply well_formed_finite.
Qed.

Lemma sound_extends h h' r : extends h h' -> sound h r -> sound h' r.
Proof.
  intros He (v & d & Hp & Hd). exists v, d.
  split; [eapply is_poly_extends; eauto|exact Hd].
Qed.

Lemma merge_sound op h self other r h' :
  sound h self -> sound h other ->
  merge op self (VRef other) h = (Ok r, h') -> sound h' r.
Proof.
  intros (sv & a & (sd & Hs & Hsd) & Ha & _) (ov & b & (od & Ho & Hod) & _).
  rewrite (merge_run op h self other sv ov sd od a b) by assumption.
  pose proof (unique_keys_merge_items op b a Ha) as Hdc.
  destruct (merge_items op b a) as [[u|e] dc]; [|discriminate].
  now apply finish_sound.
Qed.

Lemma mul_sound h self other r h' :
  sound h self ->
  match other with VRef o => sound h o | _ => True end ->
  __mul__ self other h = (Ok r, h') -> sound h' r.
Proof.
  intros (sv & a & (sd & Hs & Hsd) & Ha & _) Hother.
  assert (Hscalar : forall x, as_number other = Some x ->
                    __mul__ self other h = (Ok r, h') -> sound h' r).
  { intros x Hx. rewrite (mul_scalar_run h self other x sv sd a) by assumption.
    destruct (map_items _ a) as [dc|e] eqn:Hm; [|discriminate].
    apply construct_sound. unfold unique_keys.
    now rewrite (map_items_keys _ _ _ Hm). }
  destruct other as [z|f|o|e].
  - now apply (Hscalar (PInt z)).
  - now apply (Hscalar (PFloat f)).
  - destruct Hother as (ov & b & (od & Ho & Hod) & _).
    rewrite (mul_run h self o sv ov sd od a b) by assumption.
    pose proof (unique_keys_mul_items b a [] ltac:(constructor)) as Hdc.
    destruct (mul_items a b []) as [[u|e0] dc]; [|discriminate].
    now apply finish_sound.
  - intros H. exfalso. revert H. unfold __mul__, is_BasicPolynomial.
    cbv. discriminate.
Qed.

Lemma repeat_mul_sound k : forall h self ans r h',
  sound h self -> sound h ans ->
  repeat_mul k self ans h = (Ok r, h') -> sound h' r.
Proof.
  induction k as [|k IH]; intros h self ans r h' Hself Hans;
    cbn [repeat_mul].
  - now intros [= <- <-].
  - intros H. apply bind_ok in H. destruct H as (ans' & h1 & Hmul & H).
    apply (IH h1 self ans'); [| |exact H].
    + apply (sound_extends h); [|exact Hself].
      pose proof (keeps_extends _ _ h (keeps_mul (length h) ans (VRef self)))
        as Hext.
      now rewrite Hmul in Hext.
    + now apply (mul_sound h ans (VRef self)).
Qed.

(** Operations on sound operands return sound polynomials: the
    hypotheses under which subtraction and equality are studied hold for every
    polynomial the class can produce. *)
Lemma perform_sound op h val h' :
  sound_operands h op ->
  builds op = true ->
  perform op h = (Ok val, h') ->
  exists r, val = VRef r /\ sound h' r.
Proof.
  destruct op as [dc v|self other|self other|self other|self power];
    cbn [sound_operands builds perform]; intros Hops Hb H.
  - destruct Hops as (items & Hd & Hu). invert_binds H. injection H as <- <-.
    exists a. split; [reflexivity|].
    rewrite (BasicPolynomial_run h dc v items Hd) in Hc.
    destruct (init_items items) as [items'|e] eqn:Hi; [|discriminate].
    injection Hc as <- <-. exists v, items'. split; [|split].
    + exists (length h + 2)%nat. unfold built. split.
      * rewrite <- (Nat.add_0_r (length h)) at 2.
        now rewrite nth_error_app_base.
      * now rewrite nth_error_app_base.
    + eapply unique_keys_init_items; eassumption.
    + eapply init_items_well_formed; eassumption.
  - invert_binds H. injection H as <- <-. exists a. split; [reflexivity|].
    destruct Hops as (Hs & o & -> & Ho).
    now apply (merge_sound num_add h self o).
  - invert_binds H. injection H as <- <-. exists a. split; [reflexivity|].
    destruct Hops as (Hs & o & -> & Ho).
    now apply (merge_sound num_sub h self o).
  - invert_binds H. injection H as <- <-. exists a. split; [reflexivity|].
    destruct Hops as [Hs Ho]. now apply (mul_sound h self other).
  - destruct power as [n|f|o|e]; try discriminate.
    apply Z.leb_le in Hb. unfold __pow__ in H.
    destruct (Z.eqb_spec n 0); [lia|].
    destruct (Z.ltb_spec n 0); [lia|].
    destruct (Z.eqb_spec n 1); [lia|].
    invert_binds H. injection H as <- <-. exists a. split; [reflexivity|].
    now apply (repeat_mul_sound (Z.to_nat (n - 1)) h self self).
Qed.

(** ** Subtracting a polynomial from itself *)

Lemma sub_self_zero c :
  finite_coeff c -> exists z, num_sub c c = Ok z /\ nonzero z = false.
Proof.
  destruct c as [z|[s|s| |s m e]]; cbn [finite_coeff]; try contradiction;
    intros _.
  - exists (PInt (z - z)). split; [reflexivity|].
    unfold nonzero. cbn [num_eqb]. now rewrite Z.sub_diag.
  - exists (PFloat (S754_zero false)). split; [now destruct s|reflexivity].
  - exists (PFloat (S754_zero false)). split; [|reflexivity].
    unfold num_sub, arith, SFsub. cbv zeta. now rewrite Z.sub_diag.
Qed.

Lemma merge_sub_self items : forall pre,
  unique_keys (pre ++ items) ->
  Forall (fun pc => finite_coeff (snd pc)) items ->
  exists zs,
    merge_items num_sub items (pre ++ items) = (Ok tt, pre ++ zs)
    /\ Forall (fun pc => nonzero (snd pc) = false) zs.
Proof.
  unfold unique_keys.
  induction items as [|[p c] rest IH]; intros pre Hnd Hfin.
  - exists []. split; [reflexivity|constructor].
  - assert (Hfresh : ~ In p (map fst pre)).
    { rewrite map_app in Hnd. cbn [map fst] in Hnd.
      apply NoDup_remove_2 in Hnd. intros Hin. apply Hnd, in_or_app. now left. }
    inversion Hfin as [|? ? Hc Hrest]; subst. cbn [snd] in Hc.
    destruct (sub_self_zero c Hc) as (z & Hz & Hnz).
    cbn [merge_items fst snd]. unfold dict_get_default.
    rewrite dict_get_app_fresh by exact Hfresh.
    cbn [dict_get]. rewrite Z.eqb_refl, Hz.
    rewrite dict_set_app_fresh by exact Hfresh.
    cbn [dict_set]. rewrite Z.eqb_refl.
    destruct (IH (pre ++ [(p, z)])) as (zs & Hrun & Hzs).
    + rewrite <- app_assoc. cbn [app].
      rewrite map_app in *. exact Hnd.
    + exact Hrest.
    + exists ((p, z) :: zs). rewrite <- app_assoc in Hrun. cbn [app] in Hrun.
      rewrite <- app_assoc in Hrun. cbn [app] in Hrun.
      split; [exact Hrun|]. now constructor.
Qed.

Lemma filter_nothing {A} (f : A -> bool) l :
  Forall (fun x => f x = false) l -> filter f l = [].
Proof.
  induction 1 as [|x l Hx _ IH]; cbn [filter]; [reflexivity|].
  now rewrite Hx.
Qed.

(** C8: for every polynomial [P] the subtraction [P - P] succeeds and its
    result compares equal to the number 0. A polynomial's term map has
    unique keys and finite coefficients: the constructor's [int(c)]
    raises on an infinity and on a NaN. *)
Theorem sub_self_equals_zero h P v d :
  is_poly h P v d ->
  unique_keys d ->
  Forall (fun pc => finite_coeff (snd pc)) d ->
  exists r h',
    __sub__ P (VRef P) h = (Ok r, h')
    /\ __eq__ r (VInt 0) h' = (Ok true, h').
Proof.
  intros (dr & HP & Hdr) Hnd Hfin.
  destruct (merge_sub_self d [] Hnd Hfin) as (zs & Hrun & Hzs).
  cbn [app] in Hrun.
  unfold __sub__. rewrite (merge_run num_sub h P P v v dr dr d d) by assumption.
  rewrite Hrun. unfold finish, construct, init_items.
  rewrite String.eqb_refl, (filter_nothing _ zs Hzs). cbn [map_items].
  eexists. eexists. split; [reflexivity|].
  eapply (eq_number_run _ _ (Some v) (length h + 1 + 2)%nat [] (VInt 0) (PInt 0)).
  - unfold built. now rewrite nth_error_app_base.
  - unfold built. now rewrite <- Nat.add_assoc, nth_error_app_base.
  - reflexivity.
  - reflexivity.
Qed.

Lemma sub_self_equals_zero_witness :
  is_poly mixed_heap 1 "x" [(-1, PInt (-3)); (0, PFloat (float_lit 1 (-1)))]
  /\ exists r h',
       __sub__ 1 (VRef 1) mixed_heap = (Ok r, h')
       /\ __eq__ r (VInt 0) h' = (Ok true, h').
Proof.
  assert (Hp : is_poly mixed_heap 1 "x"
                 [(-1, PInt (-3)); (0, PFloat (float_lit 1 (-1)))]).
  { exists 3%nat. split; reflexivity. }
  split; [exact Hp|].
  apply (sub_self_equals_zero mixed_heap 1 "x" _ Hp).
  - unfold unique_keys. cbn [map fst].
    repeat constructor; cbn [In]; intuition discriminate.
  - repeat constructor.
Defined.

(** ** Equality *)

Lemma num_eqb_refl c : finite_coeff c -> num_eqb c c = true.
Proof.
  destruct c as [z|[s|s| |s m e]]; cbn [finite_coeff num_eqb];
    try contradiction; intros _.
  - apply Z.eqb_refl.
  - reflexivity.
  - unfold SFeqb, SFcompare.
    rewrite Z.compare_refl.
    change (Pos.compare_cont Eq m m) with (Pos.compare m m).
    rewrite Pos.compare_refl. now destruct s.
Qed.

Lemma same_keys_same_length a b :
  unique_keys a -> unique_keys b ->
  (forall k, dict_get a k = dict_get b k) ->
  length a = length b.
Proof.
  unfold unique_keys. intros Ha Hb Hsame.
  rewrite <- (length_map fst a), <- (length_map fst b).
  apply Nat.le_antisymm; apply NoDup_incl_length; try assumption;
    intros k Hk; apply dict_get_key; apply dict_get_key in Hk;
    destruct Hk as [v Hv]; exists v; congruence.
Qed.

(** Two dictionaries that hold the same map compare equal, whatever the
    order their entries were inserted in. *)
Lemma dict_eqb_same_map a b :
  unique_keys a -> unique_keys b ->
  Forall (fun pc => finite_coeff (snd pc)) a ->
  (forall k, dict_get a k = dict_get b k) ->
  dict_eqb a b = true.
Proof.
  intros Ha Hb Hfin Hsame. unfold dict_eqb.
  rewrite (same_keys_same_length a b Ha Hb Hsame), Nat.eqb_refl. cbn [andb].
  apply forallb_forall. intros [k v] Hin. cbn [fst snd].
  rewrite <- Hsame, (In_dict_get a k v Ha Hin).
  apply num_eqb_refl.
  rewrite Forall_forall in Hfin. exact (Hfin (k, v) Hin).
Qed.

(** C10: two polynomials with the same exponent-to-coefficient map
    compare equal. The labels [lp] and [lq] are arbitrary, different or
    even unset: [__eq__] never reads them. *)
Theorem eq_ignores_labels h p q lp lq dp dq a b :
  nth_error h p = Some (OInst {| attr_v := lp; attr_dc_powers := Some dp |}) ->
  nth_error h dp = Some (ODict a) ->
  nth_error h q = Some (OInst {| attr_v := lq; attr_dc_powers := Some dq |}) ->
  nth_error h dq = Some (ODict b) ->
  unique_keys a -> unique_keys b ->
  Forall (fun pc => finite_coeff (snd pc)) a ->
  (forall k, dict_get a k = dict_get b k) ->
  __eq__ p (VRef q) h = (Ok true, h).
Proof.
  intros Hp Hdp Hq Hdq Ha Hb Hfin Hsame.
  rewrite (eq_poly_run h p q lp lq dp dq a b) by assumption.
  now rewrite dict_eqb_same_map.
Qed.

Lemma eq_ignores_labels_witness :
  label_of twin_heap 1 = Some "x"%string
  /\ label_of twin_heap 5 = Some "t"%string
  /\ __eq__ 1 (VRef 5) twin_heap = (Ok true, twin_heap).
Proof.
  split; [reflexivity|]. split; [reflexivity|].
  apply (eq_ignores_labels twin_heap 1 5 (Some "x"%string) (Some "t"%string)
           3%nat 7%nat
           [(0, PInt 2); (1, PInt 1)] [(1, PInt 1); (0, PInt 2)]);
    try reflexivity.
  - unfold unique_keys. cbn [map fst].
    repeat constructor; cbn [In]; intuition discriminate.
  - unfold unique_keys. cbn [map fst].
    repeat constructor; cbn [In]; intuition discriminate.
  - repeat constructor.
  - intros k. cbn [dict_get].
    destruct (Z.eqb_spec 0 k), (Z.eqb_spec 1 k); congruence.
Defined.

(** A constant polynomial has no entry under the key 1. *)
Lemma constant_no_linear_term a : keys_but_zero a = [] -> dict_get a 1 = None.
Proof.
  intros Hc. destruct (dict_get a 1) as [v|] eqn:Hg; [|reflexivity].
  assert (Hin : In 1 (keys_but_zero a)).
  { unfold keys_but_zero. apply filter_In. split; [|reflexivity].
    apply nodup_In, dict_get_key. now exists v. }
  rewrite Hc in Hin. contradiction.
Qed.

(** What [__eq__] computes for a constant polynomial and a number [x]:
    the test [0 == x]. The constant coefficient is not consulted, since
    the lookup uses the key 1 where the constant term sits under 0. *)
Lemma constant_eq_number h self lv sd a other x :
  nth_error h self = Some (OInst {| attr_v := lv; attr_dc_powers := Some sd |}) ->
  nth_error h sd = Some (ODict a) ->
  keys_but_zero a = [] ->
  as_number other = Some x ->
  __eq__ self other h = (Ok (num_eqb (PInt 0) x), h).
Proof.
  intros Hs Hsd Hc Hx.
  rewrite (eq_number_run h self lv sd a other x) by assumption.
  unfold dict_get_default. now rewrite constant_no_linear_term.
Qed.

(** C1 at the polynomial [{0: 2}]: compared with its own constant 2 the
    answer is [False], compared with 0 it is [True]. *)
Theorem constant_two_eq :
  terms_of constant_heap 1 = Some [(0, PInt 2)]
  /\ __eq__ 1 (VInt 2) constant_heap = (Ok false, constant_heap)
  /\ __eq__ 1 (VInt 0) constant_heap = (Ok true, constant_heap).
Proof. repeat split; reflexivity. Qed.

(** C9 as stated fails for the powers 0 and 1: the first returns the
    number 1, which is no polynomial; the second returns the operand,
    an object the heap already has. *)
Lemma pow_zero_one_not_new :
  perform (Pow 1 (VInt 0)) sample_heap = (Ok (VInt 1), sample_heap)
  /\ perform (Pow 1 (VInt 1)) sample_heap = (Ok (VRef 1), sample_heap)
  /\ (1 < length sample_heap)%nat.
Proof. repeat split. cbn. lia. Qed.

Lemma operations_frame_witness :
  is_poly sample_heap 1 "x" [(1, PInt 1)]
  /\ exists r h',
       perform (Mul 1 (VRef 1)) sample_heap = (Ok (VRef r), h')
       /\ extends sample_heap h'
       /\ is_poly h' 1 "x" [(1, PInt 1)]
       /\ new_polynomial sample_heap h' r.
Proof.
  assert (Hp : is_poly sample_heap 1 "x" [(1, PInt 1)]).
  { exists 3%nat. split; reflexivity. }
  split; [exact Hp|].
  destruct (perform (Mul 1 (VRef 1)) sample_heap) as [out h'] eqn:Hrun.
  destruct (operations_frame (Mul 1 (VRef 1)) sample_heap out h' Hrun)
    as (Hext & Hkeep & Hnew).
  vm_compute in Hrun. injection Hrun as <- <-.
  destruct (Hnew _ eq_refl) as (r & [= <-] & Hr).
  eexists. eexists. split; [reflexivity|].
  split; [exact Hext|]. split; [now apply Hkeep|exact Hr].
Defined.

Lemma produced_polynomial_normalised_witness :
  builds (Mul 1 (VFloat (float_lit 4 0))) = true
  /\ exists r v d,
       fst (perform (Mul 1 (VFloat (float_lit 4 0))) mixed_heap) = Ok (VRef r)
       /\ is_poly (snd (perform (Mul 1 (VFloat (float_lit 4 0))) mixed_heap)) r v d
       /\ normalised d.
Proof.
  split; [reflexivity|].
  destruct (perform (Mul 1 (VFloat (float_lit 4 0))) mixed_heap)
    as [[val|e] h'] eqn:Hrun; [|vm_compute in Hrun; discriminate].
  destruct (produced_polynomial_normalised
              (Mul 1 (VFloat (float_lit 4 0))) mixed_heap val h' eq_refl Hrun)
    as (r & v & d & -> & Hp & Hd).
  exists r, v, d. auto.
Defined.

End PolynomialProofs.

(** * More on class_number.py *)

Module ClassNumberMore.
Import Py ClassNumber Forms ClassNumberProofs.

(** ** The factorizer lists every divisor pair, in ascending order *)









(** ** What the class-number loops count *)














(** ** The diagnostic output *)






End ClassNumberMore.

(** * More on polynomial.py *)

Module PolynomialExtra.
Import Py Polynomial PolynomialMore PolynomialProofs.

(** ** Labels *)

Lemma construct_ok h v dc r h' :
  construct h v dc = (Ok r, h') ->
  exists items',
    init_items dc = Ok items'
    /\ r = (length h + 1)%nat
    /\ h' = h ++ ODict dc :: built (length h + 1) v dc items'.
Proof.
  unfold construct. destruct (init_items dc) as [items'|e]; [|discriminate].
  intros [= <- <-]. now exists items'.
Qed.

Lemma construct_is_poly h v dc items' :
  is_poly (h ++ ODict dc :: built (length h + 1) v dc items')
          (length h + 1) v items'.
Proof.
  exists (length h + 1 + 2)%nat. unfold built. split.
  - now rewrite nth_error_app_base.
  - now rewrite <- Nat.add_assoc, nth_error_app_base.
Qed.

Lemma is_poly_label h r v d : is_poly h r v d -> label_of h r = Some v.
Proof. intros (dr & Hr & _). unfold label_of. now rewrite Hr. Qed.

Lemma is_poly_terms h r v d : is_poly h r v d -> terms_of h r = Some d.
Proof. intros (dr & Hr & Hd). unfold terms_of. now rewrite Hr, Hd. Qed.

(** The arithmetic on coefficients raises nothing but [OverflowError]. *)
Lemma arith_error zop fop x y e :
  arith zop fop x y = Err e -> e = OverflowError.
Proof.
  assert (Hf : forall z e', float_of_int z = Err e' -> e' = OverflowError).
  { intros z e'. unfold float_of_int.
    destruct (binary_normalize prec emax z 0 false); congruence. }
  destruct x as [x|x], y as [y|y]; cbn [arith]; try discriminate.
  - destruct (float_of_int x) eqn:H; cbn [rbind]; [discriminate|].
    intros [= <-]. eapply Hf; eauto.
  - destruct (float_of_int y) eqn:H; cbn [rbind]; [discriminate|].
    intros [= <-]. eapply Hf; eauto.
Qed.

Lemma merge_items_error zop fop items : forall dc e,
  fst (merge_items (arith zop fop) items dc) = Err e -> e = OverflowError.
Proof.
  induction items as [|pc rest IH]; intros dc e; cbn [merge_items];
    [discriminate|].
  destruct (arith zop fop _ _) eqn:H; [apply IH|].
  cbn [fst]. intros [= <-]. eapply arith_error; eauto.
Qed.

Lemma mul_inner_items_error pc1 items2 : forall dc e,
  fst (mul_inner_items pc1 items2 dc) = Err e -> e = OverflowError.
Proof.
  induction items2 as [|pc2 rest IH]; intros dc e; cbn [mul_inner_items];
    [discriminate|].
  destruct (num_mul _ _) eqn:Hm.
  - destruct (num_add _ _) eqn:Ha; [apply IH|].
    cbn [fst]. intros [= <-]. eapply arith_error; eauto.
  - cbn [fst]. intros [= <-]. eapply arith_error; eauto.
Qed.

Lemma mul_items_error items2 items1 : forall dc e,
  fst (mul_items items1 items2 dc) = Err e -> e = OverflowError.
Proof.
  induction items1 as [|pc1 rest IH]; intros dc e; cbn [mul_items];
    [discriminate|].
  pose proof (mul_inner_items_error pc1 items2 dc) as Hin.
  destruct (mul_inner_items pc1 items2 dc) as [[u|e0] dc'];
    [apply IH|].
  cbn [fst] in *. intros [= <-]. now apply Hin.
Qed.

(** The outcome of a binary operator on two polynomials: its loop fills
    a dictionary, then the labels are compared and the constructor is
    called. *)
Lemma binary_run op self other h sv ov a b :
  binary op self other ->
  is_poly h self sv a -> is_poly h other ov b ->
  exists loop : result unit * dict,
    perform op h
    = match loop with
      | (Ok _, dc) =>
          match finish h sv ov dc with
          | (Ok r, h') => (Ok (VRef r), h')
          | (Err e, h') => (Err e, h')
          end
      | (Err e, dc) => (Err e, h ++ [ODict dc])
      end
    /\ forall e, fst loop = Err e -> e = OverflowError.
Proof.
  intros Hop (sd & Hs & Hsd) (od & Ho & Hod).
  destruct Hop; cbn [perform]; unfold bind, ret.
  - exists (merge_items num_add b a). split; [|apply merge_items_error].
    unfold __add__. rewrite (merge_run _ h self other sv ov sd od a b) by assumption.
    destruct (merge_items num_add b a) as [[u|e] dc]; [|reflexivity].
    now destruct (finish h sv ov dc) as [[r|e] h'].
  - exists (merge_items num_sub b a). split; [|apply merge_items_error].
    unfold __sub__. rewrite (merge_run _ h self other sv ov sd od a b) by assumption.
    destruct (merge_items num_sub b a) as [[u|e] dc]; [|reflexivity].
    now destruct (finish h sv ov dc) as [[r|e] h'].
  - exists (mul_items a b []). split; [|apply mul_items_error].
    rewrite (mul_run h self other sv ov sd od a b) by assumption.
    destruct (mul_items a b []) as [[u|e] dc]; [|reflexivity].
    now destruct (finish h sv ov dc) as [[r|e] h'].
Qed.

(** X6: A binary operator on two polynomials returns only when their labels
    are equal, and the polynomial it returns carries that label. *)
Theorem binary_result_label op self other h sv ov a b val h' :
  binary op self other ->
  is_poly h self sv a -> is_poly h other ov b ->
  perform op h = (Ok val, h') ->
  sv = ov /\ exists r, val = VRef r /\ label_of h' r = Some sv.
Proof.
  intros Hop Hs Ho Hrun.
  destruct (binary_run op self other h sv ov a b Hop Hs Ho)
    as ([[u|e] dc] & Heq & _); rewrite Heq in Hrun; [|discriminate].
  unfold finish in Hrun.
  destruct (String.eqb_spec sv ov) as [->|Hne]; [|discriminate].
  split; [reflexivity|].
  destruct (construct h ov dc) as [[r|e] h1] eqn:Hc; [|discriminate].
  injection Hrun as <- <-. exists r. split; [reflexivity|].
  destruct (construct_ok _ _ _ _ _ Hc) as (items' & _ & -> & ->).
  eapply is_poly_label, construct_is_poly.
Qed.

Lemma binary_result_label_witness :
  is_poly twin_heap 1 "x" [(0, PInt 2); (1, PInt 1)]
  /\ exists r h',
       perform (Mul 1 (VRef 1)) twin_heap = (Ok (VRef r), h')
       /\ label_of h' r = Some "x"%string.
Proof.
  assert (Hp : is_poly twin_heap 1 "x" [(0, PInt 2); (1, PInt 1)]).
  { exists 3%nat. split; reflexivity. }
  split; [exact Hp|].
  destruct (perform (Mul 1 (VRef 1)) twin_heap) as [[val|e] h'] eqn:Hrun;
    [|vm_compute in Hrun; discriminate].
  destruct (binary_result_label (Mul 1 (VRef 1)) 1 1 twin_heap "x" "x" _ _
              val h' (binary_mul 1 1) Hp Hp Hrun) as (_ & r & -> & Hl).
  now exists r, h'.
Defined.

(** X7: With different labels a binary operator raises: [Warning], unless
    the arithmetic of its loop, which runs first, has already raised
    [OverflowError]. *)
Theorem binary_label_mismatch op self other h sv ov a b :
  binary op self other ->
  is_poly h self sv a -> is_poly h other ov b ->
  sv <> ov ->
  exists e h',
    perform op h = (Err e, h') /\ (e = Warning \/ e = OverflowError).
Proof.
  intros Hop Hs Ho Hne.
  destruct (binary_run op self other h sv ov a b Hop Hs Ho)
    as ([[u|e] dc] & Heq & Herr); rewrite Heq.
  - unfold finish. destruct (String.eqb_spec sv ov); [contradiction|].
    eexists. eexists. split; [reflexivity|now left].
  - eexists. eexists. split; [reflexivity|]. right. now apply Herr.
Qed.

Lemma binary_label_mismatch_witness :
  is_poly twin_heap 1 "x" [(0, PInt 2); (1, PInt 1)]
  /\ is_poly twin_heap 5 "t" [(1, PInt 1); (0, PInt 2)]
  /\ exists e h',
       perform (Add 1 (VRef 5)) twin_heap = (Err e, h')
       /\ (e = Warning \/ e = OverflowError).
Proof.
  assert (Hp : is_poly twin_heap 1 "x" [(0, PInt 2); (1, PInt 1)]).
  { exists 3%nat. split; reflexivity. }
  assert (Hq : is_poly twin_heap 5 "t" [(1, PInt 1); (0, PInt 2)]).
  { exists 7%nat. split; reflexivity. }
  split; [exact Hp|]. split; [exact Hq|].
  apply (binary_label_mismatch (Add 1 (VRef 5)) 1 5 twin_heap "x" "t" _ _
           (binary_add 1 5) Hp Hq).
  discriminate.
Defined.

(** ** Numbers as operands *)

Lemma merge_number_run op h self other x sv sd a :
  nth_error h self = Some (OInst {| attr_v := Some sv; attr_dc_powers := Some sd |}) ->
  nth_error h sd = Some (ODict a) ->
  as_number other = Some x ->
  merge op self other h = (Err AttributeError, h ++ [ODict a]).
Proof.
  intros Hs Hsd Hx. enter h. unfold merge.
  destruct other as [z|f|r|e]; try discriminate; open_monad; exec;
    reflexivity.
Qed.

(** X8: A number cannot be added to a polynomial, nor subtracted from it:
    [P + 1] and [P - 1] raise [AttributeError] (the operators read
    [other.dc_powers]), although [P * 2] is supported. All that is left
    behind is the copy of the term map made before the failure. *)
Theorem add_number_raises op self other x h sv a :
  op = Add self other \/ op = Sub self other ->
  is_poly h self sv a ->
  as_number other = Some x ->
  perform op h = (Err AttributeError, h ++ [ODict a]).
Proof.
  intros Hop (sd & Hs & Hsd) Hx.
  destruct Hop as [-> | ->]; cbn [perform]; unfold bind, __add__, __sub__;
    now rewrite (merge_number_run _ h self other x sv sd a).
Qed.

Lemma add_number_raises_witness :
  is_poly sample_heap 1 "x" [(1, PInt 1)]
  /\ perform (Add 1 (VInt 1)) sample_heap
     = (Err AttributeError, sample_heap ++ [ODict [(1, PInt 1)]]).
Proof.
  assert (Hp : is_poly sample_heap 1 "x" [(1, PInt 1)]).
  { exists 3%nat. split; reflexivity. }
  split; [exact Hp|].
  apply (add_number_raises (Add 1 (VInt 1)) 1 (VInt 1) (PInt 1)
           sample_heap "x" _ (or_introl eq_refl) Hp eq_refl).
Defined.

(** X9: Comparing a polynomial that has a term of non-zero exponent with a
    number does not answer [False]: it raises [AttributeError], since the
    comparison falls through to [other.dc_powers]. *)
Theorem eq_number_nonconstant_raises h self lv sd a other x :
  nth_error h self = Some (OInst {| attr_v := lv; attr_dc_powers := Some sd |}) ->
  nth_error h sd = Some (ODict a) ->
  keys_but_zero a <> [] ->
  as_number other = Some x ->
  __eq__ self other h = (Err AttributeError, h).
Proof.
  intros Hs Hsd Hc Hx. unfold __eq__, bind at 1.
  rewrite (is_constant_run h self lv sd a Hs Hsd).
  destruct (keys_but_zero a) as [|k ks]; [contradiction|].
  cbn [length Nat.eqb]. enter h.
  destruct other as [z|f|r|e]; try discriminate; open_monad; exec;
    now rewrite app_nil_r.
Qed.

Lemma eq_number_nonconstant_raises_witness :
  nth_error sample_heap 1
    = Some (OInst {| attr_v := Some "x"%string; attr_dc_powers := Some 3%nat |})
  /\ __eq__ 1 (VInt 0) sample_heap = (Err AttributeError, sample_heap).
Proof.
  split; [reflexivity|].
  apply (eq_number_nonconstant_raises sample_heap 1 (Some "x"%string) 3
           [(1, PInt 1)] (VInt 0) (PInt 0)); try reflexivity.
  discriminate.
Defined.

(** ** Multiplication by the number zero *)

Lemma mul_zero_coeff c :
  finite_coeff c -> exists z, num_mul c (PInt 0) = Ok z /\ nonzero z = false.
Proof.
  destruct c as [z|[s|s| |s m e]]; cbn [finite_coeff]; try contradiction;
    intros _.
  - exists (PInt (z * 0)). split; [reflexivity|].
    unfold nonzero. cbn [num_eqb]. now rewrite Z.mul_0_r.
  - eexists. split; [reflexivity|]. reflexivity.
  - eexists. split; [reflexivity|]. reflexivity.
Qed.

Lemma map_items_all_zero d :
  Forall (fun pc => finite_coeff (snd pc)) d ->
  exists zs,
    map_items (fun c => num_mul c (PInt 0)) d = Ok zs
    /\ Forall (fun pc => nonzero (snd pc) = false) zs.
Proof.
  induction 1 as [|[p c] d Hc _ (zs & Hzs & Hall)]; cbn [map_items].
  - exists []. split; [reflexivity|constructor].
  - destruct (mul_zero_coeff c Hc) as (z & Hz & Hnz).
    rewrite Hz, Hzs. cbn [rbind]. exists ((p, z) :: zs).
    split; [reflexivity|]. now constructor.
Qed.

(** X10: [P * 0] is the zero polynomial: the product has an empty term map
    and compares equal to the number 0. *)
Theorem mul_by_zero h P v d :
  is_poly h P v d ->
  Forall (fun pc => finite_coeff (snd pc)) d ->
  exists r h',
    __mul__ P (VInt 0) h = (Ok r, h')
    /\ terms_of h' r = Some []
    /\ __eq__ r (VInt 0) h' = (Ok true, h').
Proof.
  intros (sd & HP & Hsd) Hfin.
  destruct (map_items_all_zero d Hfin) as (zs & Hzs & Hall).
  rewrite (mul_scalar_run h P (VInt 0) (PInt 0) v sd d) by easy.
  rewrite Hzs. unfold construct, init_items.
  rewrite (filter_nothing _ zs Hall). cbn [map_items].
  eexists. eexists. split; [reflexivity|].
  pose proof (construct_is_poly h v zs []) as Hp.
  split; [now apply (is_poly_terms _ _ v)|].
  destruct Hp as (dr & Hr & Hd).
  now apply (eq_number_run _ _ (Some v) dr [] (VInt 0) (PInt 0)).
Qed.

Lemma mul_by_zero_witness :
  is_poly mixed_heap 1 "x" [(-1, PInt (-3)); (0, PFloat (float_lit 1 (-1)))]
  /\ exists r h',
       __mul__ 1 (VInt 0) mixed_heap = (Ok r, h')
       /\ terms_of h' r = Some []
       /\ __eq__ r (VInt 0) h' = (Ok true, h').
Proof.
  assert (Hp : is_poly mixed_heap 1 "x"
                 [(-1, PInt (-3)); (0, PFloat (float_lit 1 (-1)))]).
  { exists 3%nat. split; reflexivity. }
  split; [exact Hp|].
  apply (mul_by_zero mixed_heap 1 "x" _ Hp). repeat constructor.
Defined.

(** ** [degree] *)

Lemma degree_run h self lv sd a :
  nth_error h self = Some (OInst {| attr_v := lv; attr_dc_powers := Some sd |}) ->
  nth_error h sd = Some (ODict a) ->
  degree self h
  = (match py_max (map fst a) with Ok m => Ok m | Err e => Err e end, h).
Proof.
  intros Hs Hsd. enter h. unfold degree. open_monad. exec.
  rewrite app_nil_r. now destruct (py_max (map fst a)).
Qed.

Lemma fold_max_spec rest : forall k,
  In (fold_left Z.max rest k) (k :: rest)
  /\ forall x, In x (k :: rest) -> x <= fold_left Z.max rest k.
Proof.
  induction rest as [|y rest IH]; intros k; cbn [fold_left].
  - split; [now left|]. intros x [Hx|[]]. lia.
  - destruct (IH (Z.max k y)) as [Hin Hmax]. split.
    + destruct Hin as [Heq|Hin]; [|right; now right].
      rewrite <- Heq. destruct (Z.max_spec k y) as [[_ ->]|[_ ->]];
        [right; now left|now left].
    + pose proof (Hmax (Z.max k y) (or_introl eq_refl)) as Hk.
      intros x [Hx|[Hx|Hx]]; [lia|lia|].
      apply Hmax. now right.
Qed.

(** X11: [degree] returns the largest exponent of the term map, and raises
    [ValueError] when the term map is empty (the zero polynomial). *)
Theorem degree_is_largest_exponent h self v d :
  is_poly h self v d ->
  (d = [] /\ degree self h = (Err ValueError, h))
  \/ exists m,
       degree self h = (Ok m, h)
       /\ In m (map fst d)
       /\ forall k, In k (map fst d) -> k <= m.
Proof.
  intros (sd & Hs & Hsd).
  rewrite (degree_run h self (Some v) sd d Hs Hsd).
  destruct d as [|[k c] rest]; [left; now split|right].
  cbn [map fst py_max]. eexists. split; [reflexivity|].
  apply fold_max_spec.
Qed.

Lemma degree_is_largest_exponent_witness :
  is_poly mixed_heap 1 "x" [(-1, PInt (-3)); (0, PFloat (float_lit 1 (-1)))]
  /\ degree 1 mixed_heap = (Ok 0, mixed_heap).
Proof.
  assert (Hp : is_poly mixed_heap 1 "x"
                 [(-1, PInt (-3)); (0, PFloat (float_lit 1 (-1)))]).
  { exists 3%nat. split; reflexivity. }
  split; [exact Hp|].
  destruct (degree_is_largest_exponent mixed_heap 1 "x" _ Hp)
    as [[Hnil _]|(m & Hm & _ & _)]; [discriminate|].
  rewrite Hm. vm_compute in Hm. congruence.
Defined.

(** The result of [P - P], explicitly. *)
Lemma sub_self_run h P v d :
  is_poly h P v d ->
  unique_keys d ->
  Forall (fun pc => finite_coeff (snd pc)) d ->
  exists zs,
    __sub__ P (VRef P) h
    = (Ok (length h + 1)%nat, h ++ ODict zs :: built (length h + 1) v zs [])
    /\ filter (fun pc => nonzero (snd pc)) zs = [].
Proof.
  intros (dr & HP & Hdr) Hnd Hfin.
  destruct (merge_sub_self d [] Hnd Hfin) as (zs & Hrun & Hzs).
  cbn [app] in Hrun. exists zs.
  unfold __sub__. rewrite (merge_run num_sub h P P v v dr dr d d) by assumption.
  rewrite Hrun. unfold finish, construct, init_items.
  rewrite String.eqb_refl, (filter_nothing _ zs Hzs). cbn [map_items].
  split; [reflexivity|]. reflexivity.
Qed.

(** X12: The degree of a difference [P - P] is undefined: asking for it
    raises [ValueError]. *)
Theorem degree_of_self_difference h P v d :
  is_poly h P v d ->
  unique_keys d ->
  Forall (fun pc => finite_coeff (snd pc)) d ->
  fst ((s <- __sub__ P (VRef P) ;; degree s) h) = Err ValueError.
Proof.
  intros HP Hnd Hfin.
  destruct (sub_self_run h P v d HP Hnd Hfin) as (zs & Hrun & Hz).
  unfold bind. rewrite Hrun.
  pose proof (construct_is_poly h v zs []) as (dr & Hr & Hd).
  now rewrite (degree_run _ _ (Some v) dr [] Hr Hd).
Qed.

Lemma degree_of_self_difference_witness :
  is_poly mixed_heap 1 "x" [(-1, PInt (-3)); (0, PFloat (float_lit 1 (-1)))]
  /\ fst ((s <- __sub__ 1 (VRef 1) ;; degree s) mixed_heap) = Err ValueError.
Proof.
  assert (Hp : is_poly mixed_heap 1 "x"
                 [(-1, PInt (-3)); (0, PFloat (float_lit 1 (-1)))]).
  { exists 3%nat. split; reflexivity. }
  split; [exact Hp|].
  apply (degree_of_self_difference mixed_heap 1 "x" _ Hp).
  - unfold unique_keys. cbn [map fst].
    repeat constructor; cbn [In]; intuition discriminate.
  - repeat constructor.
Defined.

(** ** Term maps with integer coefficients *)

Lemma dict_get_set d k v j :
  dict_get (dict_set d k v) j = if k =? j then Some v else dict_get d j.
Proof.
  induction d as [|[k' v'] d IH]; cbn [dict_set dict_get].
  - reflexivity.
  - destruct (Z.eqb_spec k' k) as [->|Hne]; cbn [dict_get].
    + now destruct (k =? j).
    + rewrite IH. destruct (Z.eqb_spec k' j) as [->|Hj]; [|reflexivity].
      destruct (Z.eqb_spec k j); [congruence|reflexivity].
Qed.

Lemma coeff_set d k z j :
  coeff (dict_set d k (PInt z)) j = if k =? j then z else coeff d j.
Proof. unfold coeff. rewrite dict_get_set. now destruct (k =? j). Qed.

Lemma all_int_set d k z : all_int d -> all_int (dict_set d k (PInt z)).
Proof.
  unfold all_int. induction 1 as [|[k' v'] d Hv Hd IH]; cbn [dict_set].
  - repeat constructor. now exists z.
  - destruct (k' =? k); constructor; auto. now exists z.
Qed.

Lemma all_int_get d k :
  all_int d -> dict_get_default d k (PInt 0) = PInt (coeff d k).
Proof.
  unfold dict_get_default, coeff. intros Hd.
  destruct (dict_get d k) as [c|] eqn:Hg; [|reflexivity].
  apply dict_get_In in Hg. unfold all_int in Hd. rewrite Forall_forall in Hd.
  destruct (Hd _ Hg) as [z Hz]. cbn [snd] in Hz. now subst.
Qed.

Lemma int_terms_all_int d : int_terms d -> all_int d.
Proof.
  apply Forall_impl. intros pc (z & Hz & _). now exists z.
Qed.

(** In a term map of non-zero ints, the coefficients tell the entries. *)
Lemma int_terms_get d k :
  int_terms d ->
  dict_get d k = if coeff d k =? 0 then None else Some (PInt (coeff d k)).
Proof.
  unfold coeff. intros Hd. destruct (dict_get d k) as [c|] eqn:Hg;
    [|reflexivity].
  apply dict_get_In in Hg. unfold int_terms in Hd. rewrite Forall_forall in Hd.
  destruct (Hd _ Hg) as (z & Hz & Hnz). cbn [snd] in Hz. subst c.
  cbn [zval]. now destruct (Z.eqb_spec z 0).
Qed.

Lemma int_terms_finite d :
  int_terms d -> Forall (fun pc => finite_coeff (snd pc)) d.
Proof.
  apply Forall_impl. intros pc (z & -> & _). exact I.
Qed.

(** *** The loop of [__add__] and [__sub__] *)

Lemma merge_items_int zop fop (s : Z) items :
  (forall x y, zop x y = x + s * y) ->
  all_int items -> forall dc,
  all_int dc ->
  exists dc',
    merge_items (arith zop fop) items dc = (Ok tt, dc')
    /\ all_int dc'
    /\ forall j,
         coeff dc' j
         = coeff dc j
           + s * zsum (map (fun pc => if fst pc =? j then zval (snd pc) else 0)
                           items).
Proof.
  intros Hop. induction 1 as [|[p c] rest [z Hz] Hrest IH]; intros dc Hdc.
  - exists dc. repeat split; auto. intros j. cbn. lia.
  - cbn [snd] in Hz. subst c. cbn [merge_items fst snd].
    rewrite (all_int_get dc p Hdc). cbn [arith].
    destruct (IH (dict_set dc p (PInt (zop (coeff dc p) z))))
      as (dc' & Hrun & Hint & Hco); [now apply all_int_set|].
    exists dc'. split; [exact Hrun|]. split; [exact Hint|].
    intros j. rewrite Hco, coeff_set, Hop. cbn [map zsum fold_right fst snd zval].
    fold (zsum (map (fun pc => if fst pc =? j then zval (snd pc) else 0) rest)).
    destruct (Z.eqb_spec p j) as [->|Hne]; lia.
Qed.

(** For unique keys the tally of a key is its coefficient. *)
Lemma tally_unique items j :
  unique_keys items ->
  zsum (map (fun pc => if fst pc =? j then zval (snd pc) else 0) items)
  = coeff items j.
Proof.
  unfold unique_keys, coeff.
  induction items as [|[p c] rest IH]; cbn [map fst snd zsum fold_right dict_get];
    intros Hnd; [reflexivity|].
  fold (zsum (map (fun pc => if fst pc =? j then zval (snd pc) else 0) rest)).
  inversion Hnd as [|? ? Hp Hrest]; subst.
  rewrite (IH Hrest). destruct (Z.eqb_spec p j) as [->|Hne]; [|lia].
  destruct (dict_get rest j) as [c'|] eqn:Hg; [|lia].
  exfalso. apply Hp. apply dict_get_key. now exists c'.
Qed.

(** *** The constructor on ints *)

Lemma map_items_coerce_int d : all_int d -> map_items coerce d = Ok d.
Proof.
  induction 1 as [|[p c] rest [z Hz] _ IH]; cbn [map_items]; [reflexivity|].
  cbn [snd] in Hz. subst c. unfold coerce at 1. cbn [int_of rbind num_eqb].
  rewrite Z.eqb_refl, IH. reflexivity.
Qed.

Lemma filter_nonzero_int d :
  all_int d -> int_terms (filter (fun pc => nonzero (snd pc)) d).
Proof.
  unfold int_terms. induction 1 as [|[p c] rest [z Hz] _ IH]; cbn [filter];
    [constructor|].
  cbn [snd] in *. subst c. unfold nonzero at 1. cbn [num_eqb].
  destruct (Z.eqb_spec z 0); cbn [negb]; [exact IH|].
  constructor; [now exists z|exact IH].
Qed.

Lemma coeff_filter_nonzero d j :
  all_int d -> unique_keys d ->
  coeff (filter (fun pc => nonzero (snd pc)) d) j = coeff d j.
Proof.
  unfold unique_keys, coeff.
  induction 1 as [|[p c] rest [z Hz] Hrest IH]; cbn [filter map fst];
    intros Hnd; [reflexivity|].
  cbn [snd] in *. subst c. inversion Hnd as [|? ? Hp Hnd']; subst.
  unfold nonzero at 1. cbn [num_eqb].
  destruct (Z.eqb_spec z 0) as [->|Hz]; cbn [negb dict_get].
  - rewrite (IH Hnd'). destruct (Z.eqb_spec p j) as [->|Hne]; [|reflexivity].
    destruct (dict_get rest j) as [c'|] eqn:Hg; [|reflexivity].
    exfalso. apply Hp. apply dict_get_key. now exists c'.
  - destruct (p =? j); [reflexivity|]. now apply IH.
Qed.

Lemma init_items_int d :
  all_int d -> unique_keys d ->
  exists d',
    init_items d = Ok d'
    /\ d' = filter (fun pc => nonzero (snd pc)) d
    /\ unique_keys d' /\ int_terms d'
    /\ forall j, coeff d' j = coeff d j.
Proof.
  intros Hint Hu. exists (filter (fun pc => nonzero (snd pc)) d).
  pose proof (filter_nonzero_int d Hint) as Hterms.
  unfold init_items.
  rewrite (map_items_coerce_int _ (int_terms_all_int _ Hterms)).
  repeat split; auto.
  - now apply unique_keys_filter.
  - intros j. now apply coeff_filter_nonzero.
Qed.

(** *** The loops of [__mul__] *)

Lemma mul_inner_items_int p1 z1 items2 :
  all_int items2 -> forall dc,
  all_int dc ->
  exists dc',
    mul_inner_items (p1, PInt z1) items2 dc = (Ok tt, dc')
    /\ all_int dc'
    /\ forall j,
         coeff dc' j
         = coeff dc j
           + zsum (map (fun pc => if p1 + fst pc =? j
                                  then z1 * zval (snd pc) else 0) items2).
Proof.
  induction 1 as [|[p c] rest [z Hz] Hrest IH]; intros dc Hdc.
  - exists dc. repeat split; auto. intros j. cbn. lia.
  - cbn [snd] in Hz. subst c. cbn [mul_inner_items fst snd].
    rewrite (all_int_get dc _ Hdc). cbn [num_mul num_add arith].
    destruct (IH (dict_set dc (p1 + p) (PInt (z1 * z + coeff dc (p1 + p)))))
      as (dc' & Hrun & Hint & Hco); [now apply all_int_set|].
    exists dc'. split; [exact Hrun|]. split; [exact Hint|].
    intros j. rewrite Hco, coeff_set. cbn [map zsum fold_right fst snd zval].
    fold (zsum (map (fun pc => if p1 + fst pc =? j
                               then z1 * zval (snd pc) else 0) rest)).
    destruct (Z.eqb_spec (p1 + p) j) as [->|Hne]; lia.
Qed.

Lemma mul_items_int items2 items1 :
  all_int items2 -> all_int items1 -> forall dc,
  all_int dc ->
  exists dc',
    mul_items items1 items2 dc = (Ok tt, dc')
    /\ all_int dc'
    /\ forall j,
         coeff dc' j
         = coeff dc j
           + zsum (map (fun pc1 =>
                          zsum (map (fun pc2 =>
                                       if fst pc1 + fst pc2 =? j
                                       then zval (snd pc1) * zval (snd pc2)
                                       else 0) items2)) items1).
Proof.
  intros H2. induction 1 as [|[p1 c1] rest [z1 Hz] Hrest IH]; intros dc Hdc.
  - exists dc. repeat split; auto. intros j. cbn. lia.
  - cbn [snd] in Hz. subst c1. cbn [mul_items].
    destruct (mul_inner_items_int p1 z1 items2 H2 dc Hdc)
      as (dc1 & Hrun1 & Hint1 & Hco1).
    rewrite Hrun1.
    destruct (IH dc1 Hint1) as (dc' & Hrun & Hint & Hco).
    exists dc'. split; [exact Hrun|]. split; [exact Hint|].
    intros j. rewrite Hco, Hco1. cbn [map zsum fold_right fst snd zval].
    unfold zsum. lia.
Qed.

(** With unique keys the inner sum has one term, [a_i * b_(j-i)]. *)
Lemma inner_sum_unique p1 z1 items2 j :
  unique_keys items2 ->
  zsum (map (fun pc => if p1 + fst pc =? j then z1 * zval (snd pc) else 0)
            items2)
  = z1 * coeff items2 (j - p1).
Proof.
  intros Hu. rewrite <- (tally_unique items2 (j - p1) Hu).
  induction items2 as [|[p c] rest IH]; cbn [map zsum fold_right fst snd].
  - lia.
  - inversion Hu as [|? ? Hp Hrest]; subst.
    unfold zsum in IH. rewrite (IH Hrest).
    destruct (Z.eqb_spec (p1 + p) j), (Z.eqb_spec p (j - p1)); lia.
Qed.

Lemma double_sum_conv a b j :
  unique_keys b ->
  zsum (map (fun pc1 =>
               zsum (map (fun pc2 =>
                            if fst pc1 + fst pc2 =? j
                            then zval (snd pc1) * zval (snd pc2)
                            else 0) b)) a)
  = conv a b j.
Proof.
  intros Hu. unfold conv. f_equal. apply map_ext. intros [p1 c1].
  cbn [fst snd]. apply inner_sum_unique. exact Hu.
Qed.

(** ** Operators on polynomials with integer coefficients *)

Lemma extends_trans h1 h2 h3 : extends h1 h2 -> extends h2 h3 -> extends h1 h3.
Proof.
  intros [l1 ->] [l2 ->]. exists (l1 ++ l2). now rewrite app_assoc.
Qed.

Lemma int_poly_extends h h' r v d :
  extends h h' -> int_poly h r v d -> int_poly h' r v d.
Proof.
  intros He (Hp & Hu & Hi). split; [|now split].
  eapply is_poly_extends; eauto.
Qed.

Lemma construct_int h v dc :
  all_int dc -> unique_keys dc ->
  exists r h' d,
    construct h v dc = (Ok r, h')
    /\ extends h h'
    /\ int_poly h' r v d
    /\ forall j, coeff d j = coeff dc j.
Proof.
  intros Hint Hu.
  destruct (init_items_int dc Hint Hu) as (d' & Hinit & _ & Hu' & Hi' & Hco).
  unfold construct. rewrite Hinit.
  eexists. eexists. exists d'. split; [reflexivity|].
  split; [eexists; reflexivity|]. split; [|exact Hco].
  split; [apply construct_is_poly|now split].
Qed.

(** Sums and differences, by the sign [s] of the second operand. *)
Lemma merge_int zop fop (s : Z) h p q v a b :
  (forall x y, zop x y = x + s * y) ->
  int_poly h p v a -> int_poly h q v b ->
  exists r h' d,
    merge (arith zop fop) p (VRef q) h = (Ok r, h')
    /\ extends h h'
    /\ int_poly h' r v d
    /\ forall j, coeff d j = coeff a j + s * coeff b j.
Proof.
  intros Hop ((sd & Hs & Hsd) & Hua & Hia) ((od & Ho & Hod) & Hub & Hib).
  rewrite (merge_run _ h p q v v sd od a b) by assumption.
  destruct (merge_items_int zop fop s b Hop (int_terms_all_int _ Hib) a
              (int_terms_all_int _ Hia)) as (dc & Hrun & Hint & Hco).
  rewrite Hrun. unfold finish. rewrite String.eqb_refl.
  assert (Hu : unique_keys dc).
  { pose proof (unique_keys_merge_items (arith zop fop) b a Hua) as H.
    now rewrite Hrun in H. }
  destruct (construct_int h v dc Hint Hu) as (r & h' & d & Hc & He & Hp & Hd).
  exists r, h', d. split; [exact Hc|]. split; [exact He|]. split; [exact Hp|].
  intros j. now rewrite Hd, Hco, tally_unique.
Qed.

Lemma mul_int h p q v a b :
  int_poly h p v a -> int_poly h q v b ->
  exists r h' d,
    __mul__ p (VRef q) h = (Ok r, h')
    /\ extends h h'
    /\ int_poly h' r v d
    /\ forall j, coeff d j = conv a b j.
Proof.
  intros ((sd & Hs & Hsd) & Hua & Hia) ((od & Ho & Hod) & Hub & Hib).
  rewrite (mul_run h p q v v sd od a b) by assumption.
  destruct (mul_items_int b a (int_terms_all_int _ Hib)
              (int_terms_all_int _ Hia) [] ltac:(constructor))
    as (dc & Hrun & Hint & Hco).
  rewrite Hrun. unfold finish. rewrite String.eqb_refl.
  assert (Hu : unique_keys dc).
  { pose proof (unique_keys_mul_items b a [] ltac:(constructor)) as H.
    now rewrite Hrun in H. }
  destruct (construct_int h v dc Hint Hu) as (r & h' & d & Hc & He & Hp & Hd).
  exists r, h', d. split; [exact Hc|]. split; [exact He|]. split; [exact Hp|].
  intros j. rewrite Hd, Hco, double_sum_conv by exact Hub. reflexivity.
Qed.

(** Two polynomials with the same coefficients compare equal. *)
Lemma eq_int h p q vp vq a b :
  int_poly h p vp a -> int_poly h q vq b ->
  (forall k, coeff a k = coeff b k) ->
  __eq__ p (VRef q) h = (Ok true, h).
Proof.
  intros ((sd & Hs & Hsd) & Hua & Hia) ((od & Ho & Hod) & Hub & Hib) Hco.
  rewrite (eq_poly_run h p q (Some vp) (Some vq) sd od a b) by assumption.
  rewrite dict_eqb_same_map; auto.
  - now apply int_terms_finite.
  - intros k. now rewrite (int_terms_get a k Hia), (int_terms_get b k Hib), Hco.
Qed.

(** The polynomials of [test_heap]. *)
Ltac prove_int_poly dr :=
  split;
  [ exists dr; split; reflexivity
  | split;
    [ unfold unique_keys; cbn [map fst];
      repeat constructor; cbn [In]; intuition discriminate
    | repeat constructor; eexists; (split; [reflexivity|discriminate]) ] ].

Lemma test_heap_x : int_poly test_heap 1 "x" [(1, PInt 1)].
Proof. prove_int_poly 3%nat. Qed.

Lemma test_heap_2 :
  int_poly test_heap 5 "x" [(0, PInt 2); (1, PInt (-1)); (3, PInt 1)].
Proof. prove_int_poly 7%nat. Qed.

Lemma test_heap_3 :
  int_poly test_heap 9 "x" [(-1, PInt (-3)); (0, PInt 2); (1, PInt (-1))].
Proof. prove_int_poly 11%nat. Qed.

(** X13: The sum of two polynomials with int coefficients and one label is a
    polynomial whose coefficient at every exponent is the sum of the two
    coefficients there; an exponent where they cancel is not stored. *)
Theorem add_adds_coefficients h p q v a b :
  int_poly h p v a -> int_poly h q v b ->
  exists r h' d,
    __add__ p (VRef q) h = (Ok r, h')
    /\ int_poly h' r v d
    /\ forall k, coeff d k = coeff a k + coeff b k.
Proof.
  intros Hp Hq.
  destruct (merge_int Z.add (SFadd prec emax) 1 h p q v a b
              ltac:(intros; lia) Hp Hq) as (r & h' & d & Hrun & _ & Hr & Hco).
  exists r, h', d. split; [exact Hrun|]. split; [exact Hr|].
  intros k. rewrite Hco. lia.
Qed.

Lemma add_adds_coefficients_witness :
  exists r h' d,
    __add__ 1 (VRef 5) test_heap = (Ok r, h')
    /\ int_poly h' r "x" d
    /\ forall k,
         coeff d k
         = coeff [(1, PInt 1)] k
           + coeff [(0, PInt 2); (1, PInt (-1)); (3, PInt 1)] k.
Proof.
  exact (add_adds_coefficients test_heap 1 5 "x" _ _ test_heap_x test_heap_2).
Defined.

(** X14: The difference of two polynomials with int coefficients and one
    label is a polynomial whose coefficient at every exponent is the
    difference of the two coefficients there. *)
Theorem sub_subtracts_coefficients h p q v a b :
  int_poly h p v a -> int_poly h q v b ->
  exists r h' d,
    __sub__ p (VRef q) h = (Ok r, h')
    /\ int_poly h' r v d
    /\ forall k, coeff d k = coeff a k - coeff b k.
Proof.
  intros Hp Hq.
  destruct (merge_int Z.sub (SFsub prec emax) (-1) h p q v a b
              ltac:(intros; lia) Hp Hq) as (r & h' & d & Hrun & _ & Hr & Hco).
  exists r, h', d. split; [exact Hrun|]. split; [exact Hr|].
  intros k. rewrite Hco. lia.
Qed.

Lemma sub_subtracts_coefficients_witness :
  exists r h' d,
    __sub__ 5 (VRef 9) test_heap = (Ok r, h')
    /\ int_poly h' r "x" d
    /\ forall k,
         coeff d k
         = coeff [(0, PInt 2); (1, PInt (-1)); (3, PInt 1)] k
           - coeff [(-1, PInt (-3)); (0, PInt 2); (1, PInt (-1))] k.
Proof.
  exact (sub_subtracts_coefficients test_heap 5 9 "x" _ _
           test_heap_2 test_heap_3).
Defined.

(** X15: The product of two such polynomials has, at every exponent [k], the
    coefficient [sum of a_i * b_(k-i)] over the terms [a_i x^i] of the
    left operand: the loops of [__mul__] compute the convolution. *)
Theorem mul_convolves_coefficients h p q v a b :
  int_poly h p v a -> int_poly h q v b ->
  exists r h' d,
    __mul__ p (VRef q) h = (Ok r, h')
    /\ int_poly h' r v d
    /\ forall k, coeff d k = conv a b k.
Proof.
  intros Hp Hq.
  destruct (mul_int h p q v a b Hp Hq) as (r & h' & d & Hrun & _ & Hr & Hco).
  now exists r, h', d.
Qed.

Lemma mul_convolves_coefficients_witness :
  exists r h' d,
    __mul__ 9 (VRef 5) test_heap = (Ok r, h')
    /\ int_poly h' r "x" d
    /\ forall k,
         coeff d k
         = conv [(-1, PInt (-3)); (0, PInt 2); (1, PInt (-1))]
                [(0, PInt 2); (1, PInt (-1)); (3, PInt 1)] k.
Proof.
  exact (mul_convolves_coefficients test_heap 9 5 "x" _ _
           test_heap_3 test_heap_2).
Defined.

(** ** Algebraic laws, up to [==] *)

Lemma zsum_cons x l : zsum (x :: l) = x + zsum l.
Proof. reflexivity. Qed.

Lemma zsum_map_add {A} (f g : A -> Z) l :
  zsum (map (fun x => f x + g x) l) = zsum (map f l) + zsum (map g l).
Proof.
  induction l as [|x l IH]; [reflexivity|].
  cbn [map]. rewrite !zsum_cons, IH. lia.
Qed.

Lemma zsum_map_zero {A} (l : list A) : zsum (map (fun _ => 0) l) = 0.
Proof.
  induction l as [|x l IH]; [reflexivity|].
  cbn [map]. rewrite zsum_cons, IH. reflexivity.
Qed.

Lemma zsum_swap {A B} (f : A -> B -> Z) la lb :
  zsum (map (fun x => zsum (map (fun y => f x y) lb)) la)
  = zsum (map (fun y => zsum (map (fun x => f x y) la)) lb).
Proof.
  induction la as [|x la IH].
  - cbn [map]. rewrite zsum_map_zero. reflexivity.
  - cbn [map]. rewrite zsum_cons, IH.
    rewrite <- (zsum_map_add (fun y => f x y)
                  (fun y => zsum (map (fun x0 => f x0 y) la)) lb).
    f_equal.
Qed.

Lemma conv_comm a b k : unique_keys a -> unique_keys b -> conv a b k = conv b a k.
Proof.
  intros Ha Hb.
  rewrite <- (double_sum_conv a b k Hb), <- (double_sum_conv b a k Ha).
  rewrite zsum_swap. f_equal. apply map_ext. intros [p2 c2].
  f_equal. apply map_ext. intros [p1 c1]. cbn [fst snd].
  rewrite (Z.add_comm p2 p1), (Z.mul_comm (zval c2)). reflexivity.
Qed.

Lemma conv_add a b c s k :
  (forall j, coeff s j = coeff b j + coeff c j) ->
  conv a s k = conv a b k + conv a c k.
Proof.
  intros Hs. unfold conv. rewrite <- zsum_map_add. f_equal.
  apply map_ext. intros [p1 c1]. cbn [fst snd]. rewrite Hs. lia.
Qed.

(** X16: Addition commutes: [P + Q == Q + P] evaluates to [True], although
    the two sums may hold their terms in different orders. *)
Theorem add_commutes h p q v a b :
  int_poly h p v a -> int_poly h q v b ->
  fst ((s1 <- __add__ p (VRef q) ;;
        s2 <- __add__ q (VRef p) ;;
        __eq__ s1 (VRef s2)) h) = Ok true.
Proof.
  intros Hp Hq.
  destruct (merge_int Z.add (SFadd prec emax) 1 h p q v a b
              ltac:(intros; lia) Hp Hq) as (s1 & h1 & d1 & Hrun1 & He1 & Hs1 & Hco1).
  destruct (merge_int Z.add (SFadd prec emax) 1 h1 q p v b a
              ltac:(intros; lia)
              (int_poly_extends _ _ _ _ _ He1 Hq)
              (int_poly_extends _ _ _ _ _ He1 Hp))
    as (s2 & h2 & d2 & Hrun2 & He2 & Hs2 & Hco2).
  change (merge (arith Z.add (SFadd prec emax))) with __add__ in Hrun1, Hrun2.
  unfold bind. rewrite Hrun1, Hrun2.
  rewrite (eq_int h2 s1 s2 v v d1 d2); [reflexivity| |exact Hs2|].
  - eapply int_poly_extends; eauto.
  - intros k. rewrite Hco1, Hco2. lia.
Qed.

Lemma add_commutes_witness :
  fst ((s1 <- __add__ 5 (VRef 9) ;;
        s2 <- __add__ 9 (VRef 5) ;;
        __eq__ s1 (VRef s2)) test_heap) = Ok true.
Proof.
  exact (add_commutes test_heap 5 9 "x" _ _ test_heap_2 test_heap_3).
Defined.

(** X17: Multiplication commutes: [P * Q == Q * P] evaluates to [True]. *)
Theorem mul_commutes h p q v a b :
  int_poly h p v a -> int_poly h q v b ->
  fst ((s1 <- __mul__ p (VRef q) ;;
        s2 <- __mul__ q (VRef p) ;;
        __eq__ s1 (VRef s2)) h) = Ok true.
Proof.
  intros Hp Hq.
  destruct (mul_int h p q v a b Hp Hq)
    as (s1 & h1 & d1 & Hrun1 & He1 & Hs1 & Hco1).
  destruct (mul_int h1 q p v b a
              (int_poly_extends _ _ _ _ _ He1 Hq)
              (int_poly_extends _ _ _ _ _ He1 Hp))
    as (s2 & h2 & d2 & Hrun2 & He2 & Hs2 & Hco2).
  unfold bind. rewrite Hrun1, Hrun2.
  rewrite (eq_int h2 s1 s2 v v d1 d2); [reflexivity| |exact Hs2|].
  - eapply int_poly_extends; eauto.
  - intros k. rewrite Hco1, Hco2. apply conv_comm.
    + now destruct Hp as (_ & Hu & _).
    + now destruct Hq as (_ & Hu & _).
Qed.

Lemma mul_commutes_witness :
  fst ((s1 <- __mul__ 5 (VRef 9) ;;
        s2 <- __mul__ 9 (VRef 5) ;;
        __eq__ s1 (VRef s2)) test_heap) = Ok true.
Proof.
  exact (mul_commutes test_heap 5 9 "x" _ _ test_heap_2 test_heap_3).
Defined.

(** X18: Multiplication distributes over addition:
    [P * (Q + R) == P * Q + P * R] evaluates to [True]. *)
Theorem mul_distributes h p q r v a b c :
  int_poly h p v a -> int_poly h q v b -> int_poly h r v c ->
  fst ((s <- __add__ q (VRef r) ;;
        lhs <- __mul__ p (VRef s) ;;
        pq <- __mul__ p (VRef q) ;;
        pr <- __mul__ p (VRef r) ;;
        rhs <- __add__ pq (VRef pr) ;;
        __eq__ lhs (VRef rhs)) h) = Ok true.
Proof.
  intros Hp Hq Hr.
  destruct (merge_int Z.add (SFadd prec emax) 1 h q r v b c
              ltac:(intros; lia) Hq Hr) as (s & h1 & ds & Hrun1 & He1 & Hs & Hcs).
  pose proof (int_poly_extends _ _ _ _ _ He1 Hp) as Hp1.
  destruct (mul_int h1 p s v a ds Hp1 Hs)
    as (lhs & h2 & dl & Hrun2 & He2 & Hl & Hcl).
  pose proof (extends_trans _ _ _ He1 He2) as He12.
  destruct (mul_int h2 p q v a b
              (int_poly_extends _ _ _ _ _ He12 Hp)
              (int_poly_extends _ _ _ _ _ He12 Hq))
    as (pq & h3 & dpq & Hrun3 & He3 & Hpq & Hcpq).
  pose proof (extends_trans _ _ _ He12 He3) as He13.
  destruct (mul_int h3 p r v a c
              (int_poly_extends _ _ _ _ _ He13 Hp)
              (int_poly_extends _ _ _ _ _ He13 Hr))
    as (pr & h4 & dpr & Hrun4 & He4 & Hpr & Hcpr).
  destruct (merge_int Z.add (SFadd prec emax) 1 h4 pq pr v dpq dpr
              ltac:(intros; lia)
              (int_poly_extends _ _ _ _ _ He4 Hpq) Hpr)
    as (rhs & h5 & dr & Hrun5 & He5 & Hrhs & Hcr).
  change (merge (arith Z.add (SFadd prec emax))) with __add__ in Hrun1, Hrun5.
  unfold bind. rewrite Hrun1, Hrun2, Hrun3, Hrun4, Hrun5.
  rewrite (eq_int h5 lhs rhs v v dl dr); [reflexivity| |exact Hrhs|].
  - apply (int_poly_extends h2); [|exact Hl].
    eapply extends_trans; [exact He3|].
    eapply extends_trans; [exact He4|exact He5].
  - intros k. rewrite Hcl, Hcr, Hcpq, Hcpr.
    rewrite (conv_add a b c ds k); [lia|].
    intros j. rewrite Hcs. lia.
Qed.

Lemma mul_distributes_witness :
  fst ((s <- __add__ 5 (VRef 9) ;;
        lhs <- __mul__ 1 (VRef s) ;;
        pq <- __mul__ 1 (VRef 5) ;;
        pr <- __mul__ 1 (VRef 9) ;;
        rhs <- __add__ pq (VRef pr) ;;
        __eq__ lhs (VRef rhs)) test_heap) = Ok true.
Proof.
  exact (mul_distributes test_heap 1 5 9 "x" _ _ _
           test_heap_x test_heap_2 test_heap_3).
Defined.

(** ** Equality and scalar multiples *)

Lemma dict_eqb_coeff a b :
  unique_keys a -> unique_keys b -> all_int a -> all_int b ->
  dict_eqb a b = true -> forall k, coeff a k = coeff b k.
Proof.
  intros Hua Hub Hia Hib Heq k. unfold dict_eqb in Heq.
  apply andb_prop in Heq. destruct Heq as [Hlen Hall].
  apply Nat.eqb_eq in Hlen. rewrite forallb_forall in Hall.
  assert (Hsub : forall j v, In (j, v) a -> coeff a j = coeff b j).
  { intros j v Hin. specialize (Hall _ Hin). cbn [fst snd] in Hall.
    unfold coeff. rewrite (In_dict_get a j v Hua Hin).
    destruct (dict_get b j) as [w|] eqn:Hb; [|discriminate].
    unfold all_int in Hia, Hib. rewrite Forall_forall in Hia, Hib.
    destruct (Hia _ Hin) as [x Hx]. cbn [snd] in Hx. subst v.
    destruct (Hib _ (dict_get_In _ _ _ Hb)) as [y Hy]. cbn [snd] in Hy.
    subst w. cbn [num_eqb zval] in *. now apply Z.eqb_eq. }
  assert (Hincl : incl (map fst b) (map fst a)).
  { apply NoDup_length_incl; [exact Hua| |].
    - rewrite !length_map. lia.
    - intros j Hj. apply in_map_iff in Hj. destruct Hj as ([j' v] & <- & Hin).
      specialize (Hall _ Hin). cbn [fst snd] in *.
      destruct (dict_get b j') as [w|] eqn:Hb; [|discriminate].
      apply dict_get_In in Hb. now apply (in_map fst) in Hb. }
  destruct (dict_get a k) as [v|] eqn:Ha.
  - apply (Hsub k v). now apply dict_get_In.
  - unfold coeff. rewrite Ha.
    destruct (dict_get b k) as [w|] eqn:Hb; [|reflexivity].
    apply dict_get_In, (in_map fst), Hincl, in_map_iff in Hb.
    destruct Hb as ([k' v] & Hk & Hin). cbn [fst] in Hk. subst k'.
    rewrite (In_dict_get a k v Hua Hin) in Ha. discriminate.
Qed.

(** X19: Between two polynomials with int coefficients, [==] is [True]
    exactly when the coefficients agree at every exponent; labels and
    the order of the entries play no part. *)
Theorem eq_iff_same_coefficients h p q vp vq a b :
  int_poly h p vp a -> int_poly h q vq b ->
  exists r,
    __eq__ p (VRef q) h = (Ok r, h)
    /\ (r = true <-> forall k, coeff a k = coeff b k).
Proof.
  intros Hp Hq. pose proof Hp as ((sd & Hs & Hsd) & Hua & Hia).
  pose proof Hq as ((od & Ho & Hod) & Hub & Hib).
  exists (dict_eqb a b). split.
  - apply (eq_poly_run h p q (Some vp) (Some vq) sd od a b); assumption.
  - split.
    + apply dict_eqb_coeff; auto using int_terms_all_int.
    + intros Hco. pose proof (eq_int h p q vp vq a b Hp Hq Hco) as Hrun.
      rewrite (eq_poly_run h p q (Some vp) (Some vq) sd od a b) in Hrun
        by assumption.
      congruence.
Qed.

Lemma eq_iff_same_coefficients_witness :
  exists r,
    __eq__ 1 (VRef 5) test_heap = (Ok r, test_heap)
    /\ (r = true
        <-> forall k,
              coeff [(1, PInt 1)] k
              = coeff [(0, PInt 2); (1, PInt (-1)); (3, PInt 1)] k).
Proof.
  exact (eq_iff_same_coefficients test_heap 1 5 "x" "x" _ _
           test_heap_x test_heap_2).
Defined.

Lemma map_items_scale k a :
  all_int a ->
  map_items (fun c => num_mul c (PInt k)) a
  = Ok (map (fun pc => (fst pc, PInt (zval (snd pc) * k))) a).
Proof.
  induction 1 as [|[p c] a (z & Hz) Ha IH]; [reflexivity|].
  cbn [snd] in Hz. subst c. cbn [map_items map fst snd zval].
  rewrite IH. reflexivity.
Qed.

Lemma coeff_map_scale k a j :
  coeff (map (fun pc => (fst pc, PInt (zval (snd pc) * k))) a) j
  = coeff a j * k.
Proof.
  unfold coeff. induction a as [|[p c] a IH]; [reflexivity|].
  cbn [map dict_get fst snd]. now destruct (p =? j).
Qed.

(** X20: A polynomial with int coefficients times an int [k], which is also
    what [k * P] computes through [__rmul__]: every coefficient is
    multiplied by [k]. *)
Theorem mul_scalar_scales_coefficients h p v a k :
  int_poly h p v a ->
  exists r h' d,
    __mul__ p (VInt k) h = (Ok r, h')
    /\ int_poly h' r v d
    /\ forall j, coeff d j = coeff a j * k.
Proof.
  intros ((sd & Hs & Hsd) & Hua & Hia).
  rewrite (mul_scalar_run h p (VInt k) (PInt k) v sd a Hs Hsd eq_refl).
  rewrite (map_items_scale k a (int_terms_all_int _ Hia)).
  destruct (construct_int h v
              (map (fun pc => (fst pc, PInt (zval (snd pc) * k))) a))
    as (r & h' & d & Hc & He & Hr & Hco).
  - apply Forall_forall. intros pc Hin. apply in_map_iff in Hin.
    destruct Hin as (pc' & <- & _). cbn [snd]. eauto.
  - unfold unique_keys. rewrite map_map. cbn [fst]. exact Hua.
  - exists r, h', d. split; [exact Hc|]. split; [exact Hr|].
    intros j. now rewrite Hco, coeff_map_scale.
Qed.

Lemma mul_scalar_scales_coefficients_witness :
  exists r h' d,
    __mul__ 5 (VInt 4) test_heap = (Ok r, h')
    /\ int_poly h' r "x" d
    /\ forall j,
         coeff d j = coeff [(0, PInt 2); (1, PInt (-1)); (3, PInt 1)] j * 4.
Proof.
  exact (mul_scalar_scales_coefficients test_heap 5 "x" _ 4 test_heap_2).
Defined.

(** X21: Subtracting what was added gives the first operand back:
    [(P + Q) - Q == P] evaluates to [True]. *)
Theorem add_then_sub_round_trip h p q v a b :
  int_poly h p v a -> int_poly h q v b ->
  fst ((s <- __add__ p (VRef q) ;;
        d <- __sub__ s (VRef q) ;;
        __eq__ d (VRef p)) h) = Ok true.
Proof.
  intros Hp Hq.
  destruct (merge_int Z.add (SFadd prec emax) 1 h p q v a b
              ltac:(intros; lia) Hp Hq) as (s & h1 & ds & Hrun1 & He1 & Hs & Hcs).
  destruct (merge_int Z.sub (SFsub prec emax) (-1) h1 s q v ds b
              ltac:(intros; lia) Hs (int_poly_extends _ _ _ _ _ He1 Hq))
    as (d & h2 & dd & Hrun2 & He2 & Hd & Hcd).
  change (merge (arith Z.add (SFadd prec emax))) with __add__ in Hrun1.
  change (merge (arith Z.sub (SFsub prec emax))) with __sub__ in Hrun2.
  unfold bind. rewrite Hrun1, Hrun2.
  rewrite (eq_int h2 d p v v dd a); [reflexivity|exact Hd| |].
  - apply (int_poly_extends h); [|exact Hp]. eapply extends_trans; eauto.
  - intros k. rewrite Hcd, Hcs. lia.
Qed.

Lemma add_then_sub_round_trip_witness :
  fst ((s <- __add__ 5 (VRef 9) ;;
        d <- __sub__ s (VRef 9) ;;
        __eq__ d (VRef 5)) test_heap) = Ok true.
Proof.
  exact (add_then_sub_round_trip test_heap 5 9 "x" _ _
           test_heap_2 test_heap_3).
Defined.

(** ** Evaluation *)

Lemma zsum_app l1 l2 : zsum (l1 ++ l2) = zsum l1 + zsum l2.
Proof.
  induction l1 as [|x l1 IH]; [reflexivity|].
  cbn [app]. rewrite !zsum_cons, IH. lia.
Qed.

Lemma zsum_map_scale {A} (f : A -> Z) s l :
  zsum (map (fun x => s * f x) l) = s * zsum (map f l).
Proof.
  induction l as [|x l IH]; cbn [map]; [cbn; lia|].
  rewrite !zsum_cons, IH. lia.
Qed.

Lemma tally_cons p c l k :
  tally ((p, c) :: l) k = (if p =? k then zval c else 0) + tally l k.
Proof. reflexivity. Qed.

Lemma value_cons p c l x : value ((p, c) :: l) x = zval c * x ^ p + value l x.
Proof. reflexivity. Qed.

Lemma tally_app l1 l2 k : tally (l1 ++ l2) k = tally l1 k + tally l2 k.
Proof. unfold tally. now rewrite map_app, zsum_app. Qed.

Lemma value_app l1 l2 x : value (l1 ++ l2) x = value l1 x + value l2 x.
Proof. unfold value. now rewrite map_app, zsum_app. Qed.

Lemma value_without k l x :
  value l x = tally l k * x ^ k + value (without k l) x.
Proof.
  induction l as [|[p c] l IH]; [cbn; lia|].
  rewrite value_cons, tally_cons, IH. unfold without. cbn [filter fst].
  destruct (Z.eqb_spec p k) as [->|Hne]; cbn [negb].
  - fold (without k l). lia.
  - fold (without k l). rewrite value_cons. lia.
Qed.

Lemma tally_without k l j :
  tally (without k l) j = if j =? k then 0 else tally l j.
Proof.
  induction l as [|[p c] l IH].
  - cbn. now destruct (j =? k).
  - unfold without. cbn [filter fst]. fold (without k l).
    rewrite (tally_cons p c l j).
    destruct (Z.eqb_spec p k) as [Hpk|Hne]; cbn [negb].
    + rewrite IH. destruct (Z.eqb_spec j k) as [Hjk|Hj]; [reflexivity|].
      destruct (Z.eqb_spec p j); [congruence|lia].
    + rewrite tally_cons, IH.
      destruct (Z.eqb_spec j k) as [Hjk|Hj]; [|reflexivity].
      destruct (Z.eqb_spec p j); [congruence|reflexivity].
Qed.

Lemma without_length k l : (length (without k l) <= length l)%nat.
Proof. apply filter_length_le. Qed.

Lemma without_head_length k c l :
  (length (without k ((k, c) :: l)) < length ((k, c) :: l))%nat.
Proof.
  unfold without. cbn [filter fst]. rewrite Z.eqb_refl. cbn [negb length].
  pose proof (without_length k l). unfold without in *. lia.
Qed.

(** Two lists of terms with the same tallies have the same value. *)
Lemma value_ext x : forall n l l',
  (length l + length l' <= n)%nat ->
  (forall k, tally l k = tally l' k) ->
  value l x = value l' x.
Proof.
  induction n as [|n IH]; intros l l' Hlen Ht.
  - destruct l; [|cbn in Hlen; lia]. destruct l'; [|cbn in Hlen; lia].
    reflexivity.
  - assert (Hstep : forall k,
              (length (without k l) + length (without k l') <= n)%nat ->
              value l x = value l' x).
    { intros k Hk.
      rewrite (value_without k l), (value_without k l'), Ht.
      f_equal. apply IH; [exact Hk|].
      intros j. rewrite !tally_without. now rewrite Ht. }
    destruct l as [|[k c] l].
    + destruct l' as [|[k c] l']; [reflexivity|].
      apply (Hstep k).
      pose proof (without_head_length k c l'). cbn [without filter length] in *.
      lia.
    + apply (Hstep k).
      pose proof (without_head_length k c l).
      pose proof (without_length k l'). lia.
Qed.

Lemma tally_scaled s b k : tally (scaled s b) k = s * tally b k.
Proof.
  unfold tally, scaled. rewrite map_map, <- zsum_map_scale. f_equal.
  apply map_ext. intros [p c]. cbn [fst snd zval].
  destruct (p =? k); lia.
Qed.

Lemma value_scaled s b x : value (scaled s b) x = s * value b x.
Proof.
  unfold value, scaled. rewrite map_map, <- zsum_map_scale. f_equal.
  apply map_ext. intros [p c]. cbn [fst snd zval]. lia.
Qed.

Lemma tally_products a b k :
  tally (products a b) k
  = zsum (map (fun pc1 =>
                 zsum (map (fun pc2 =>
                              if fst pc1 + fst pc2 =? k
                              then zval (snd pc1) * zval (snd pc2)
                              else 0) b)) a).
Proof.
  induction a as [|[p1 c1] a IH]; [reflexivity|].
  unfold products. cbn [flat_map map fst snd]. fold (products a b).
  rewrite tally_app, IH, zsum_cons. f_equal.
  unfold tally. rewrite map_map. reflexivity.
Qed.

Lemma value_products a b x :
  nonneg_exponents a -> nonneg_exponents b ->
  value (products a b) x = value a x * value b x.
Proof.
  intros Ha Hb. induction Ha as [|[p1 c1] a Hp1 Ha IH]; [reflexivity|].
  unfold products. cbn [flat_map map fst snd]. fold (products a b).
  rewrite value_app, IH, value_cons.
  enough (Hrow : value (map (fun pc2 => (p1 + fst pc2,
                                          PInt (zval c1 * zval (snd pc2)))) b) x
                 = zval c1 * x ^ p1 * value b x) by (rewrite Hrow; lia).
  cbn [fst] in Hp1. clear IH Ha.
  induction Hb as [|[p2 c2] b Hp2 Hb IHb]; [cbn; lia|].
  cbn [map fst snd]. rewrite !value_cons, IHb. cbn [zval fst] in *.
  rewrite Z.pow_add_r by assumption. lia.
Qed.

(** Where the coefficients are a sum, so is the value. *)
Lemma value_of_sum s d a b x :
  unique_keys d -> unique_keys a -> unique_keys b ->
  (forall j, coeff d j = coeff a j + s * coeff b j) ->
  value d x = value a x + s * value b x.
Proof.
  intros Hd Ha Hb Hco.
  rewrite <- value_scaled, <- value_app.
  apply (value_ext x _ _ _ (Nat.le_refl _)).
  intros k. rewrite tally_app, tally_scaled.
  unfold tally. rewrite !tally_unique by assumption. apply Hco.
Qed.

Lemma value_of_product d a b x :
  unique_keys d -> unique_keys b ->
  nonneg_exponents a -> nonneg_exponents b ->
  (forall j, coeff d j = conv a b j) ->
  value d x = value a x * value b x.
Proof.
  intros Hd Hb Hna Hnb Hco.
  rewrite <- value_products by assumption.
  apply (value_ext x _ _ _ (Nat.le_refl _)).
  intros k. rewrite tally_products, double_sum_conv by assumption.
  unfold tally. rewrite tally_unique by assumption. apply Hco.
Qed.

(** The exponents a term map holds are those of non-zero coefficient. *)
Lemma coeff_key d k : coeff d k <> 0 -> In k (map fst d).
Proof.
  unfold coeff. destruct (dict_get d k) as [c|] eqn:Hg; [|congruence].
  intros _. apply dict_get_In in Hg. now apply (in_map fst) in Hg.
Qed.

Lemma key_coeff d k : int_terms d -> In k (map fst d) -> coeff d k <> 0.
Proof.
  unfold coeff. induction 1 as [|[p c] d (z & Hz & Hnz) Hd IH];
    cbn [map fst In dict_get]; [tauto|].
  cbn [snd] in Hz. subst c.
  destruct (Z.eqb_spec p k) as [->|Hne]; [intros _; exact Hnz|].
  intros [Heq|Hin]; [congruence|auto].
Qed.

Lemma nonneg_key d k : nonneg_exponents d -> In k (map fst d) -> 0 <= k.
Proof.
  unfold nonneg_exponents. rewrite Forall_forall. intros Hd Hin.
  apply in_map_iff in Hin. destruct Hin as (pc & <- & Hpc). auto.
Qed.

Lemma nonneg_by_coeff d :
  int_terms d -> (forall k, coeff d k <> 0 -> 0 <= k) -> nonneg_exponents d.
Proof.
  intros Hi Hk. unfold nonneg_exponents. rewrite Forall_forall.
  intros pc Hpc. apply Hk, key_coeff; [exact Hi|]. now apply in_map.
Qed.

Lemma zsum_nonzero {A} (f : A -> Z) l :
  zsum (map f l) <> 0 -> exists x, In x l /\ f x <> 0.
Proof.
  induction l as [|y l IH]; cbn [map]; [cbn; congruence|].
  rewrite zsum_cons. intros Hs.
  destruct (Z.eq_dec (f y) 0) as [Hy|Hy].
  - destruct IH as (x & Hx & Hfx); [lia|]. exists x. split; [now right|auto].
  - exists y. split; [now left|exact Hy].
Qed.

Lemma conv_nonneg a b k :
  nonneg_exponents a -> nonneg_exponents b -> conv a b k <> 0 -> 0 <= k.
Proof.
  intros Ha Hb Hc. unfold conv in Hc.
  apply zsum_nonzero in Hc. destruct Hc as ([p c] & Hin & Hne).
  cbn [fst snd] in Hne.
  assert (Hp : 0 <= p) by (apply (nonneg_key a); [exact Ha|now apply (in_map fst) in Hin]).
  assert (Hq : 0 <= k - p).
  { apply (nonneg_key b); [exact Hb|]. apply coeff_key. nia. }
  lia.
Qed.

(** Sums, differences and products, with their values. *)
Lemma merge_value zop fop (s : Z) h p q v a b :
  (forall x y, zop x y = x + s * y) ->
  int_poly h p v a -> int_poly h q v b ->
  nonneg_exponents a -> nonneg_exponents b ->
  exists r h' d,
    merge (arith zop fop) p (VRef q) h = (Ok r, h')
    /\ extends h h'
    /\ int_poly h' r v d
    /\ nonneg_exponents d
    /\ forall x, value d x = value a x + s * value b x.
Proof.
  intros Hop Hp Hq Hna Hnb.
  destruct (merge_int zop fop s h p q v a b Hop Hp Hq)
    as (r & h' & d & Hrun & He & Hr & Hco).
  exists r, h', d. split; [exact Hrun|]. split; [exact He|].
  split; [exact Hr|].
  destruct Hp as (_ & Hua & _), Hq as (_ & Hub & _), Hr as (_ & Hud & Hid).
  split.
  - apply nonneg_by_coeff; [exact Hid|]. intros k Hk. rewrite Hco in Hk.
    destruct (Z.eq_dec (coeff a k) 0) as [Hz|Hz].
    + apply (nonneg_key b); [exact Hnb|]. apply coeff_key. nia.
    + apply (nonneg_key a); [exact Hna|]. now apply coeff_key.
  - intros x. now apply value_of_sum.
Qed.

Lemma mul_value h p q v a b :
  int_poly h p v a -> int_poly h q v b ->
  nonneg_exponents a -> nonneg_exponents b ->
  exists r h' d,
    __mul__ p (VRef q) h = (Ok r, h')
    /\ extends h h'
    /\ int_poly h' r v d
    /\ nonneg_exponents d
    /\ forall x, value d x = value a x * value b x.
Proof.
  intros Hp Hq Hna Hnb.
  destruct (mul_int h p q v a b Hp Hq)
    as (r & h' & d & Hrun & He & Hr & Hco).
  exists r, h', d. split; [exact Hrun|]. split; [exact He|].
  split; [exact Hr|].
  destruct Hq as (_ & Hub & _), Hr as (_ & Hud & Hid).
  split.
  - apply nonneg_by_coeff; [exact Hid|]. intros k Hk. rewrite Hco in Hk.
    now apply (conv_nonneg a b).
  - intros x. now apply value_of_product.
Qed.

(** The loop of [__call__] on int terms with exponents [>= 0] and an int
    argument stays within the ints. *)
Lemma call_loop_int fp x d :
  all_int d -> nonneg_exponents d ->
  forall acc,
    call_loop fp (PInt x) d (PInt acc) = Value (PInt (acc + value d x)).
Proof.
  intros Hi Hn. induction Hi as [|[p c] d (z & Hz) Hi IH]; intros acc.
  - cbn. f_equal. f_equal. lia.
  - inversion Hn as [|? ? Hp Hn']; subst. cbn [fst snd] in *. subst c.
    cbn [call_loop py_pow].
    destruct (Z.leb_spec 0 p) as [_|Hlt]; [|lia].
    cbn [obind of_result num_mul num_add arith].
    rewrite (IH Hn'), value_cons. cbn [zval]. f_equal. f_equal. lia.
Qed.

Lemma call_run fp h p v d x :
  int_poly h p v d -> nonneg_exponents d ->
  __call__ fp p (PInt x) h = (Value (PInt (value d x)), h).
Proof.
  intros ((sd & Hs & Hsd) & _ & Hi) Hn. unfold __call__.
  assert (Hitems : (sd' <- getattr_dc_powers p ;; dict_items sd') h
                   = (Ok d, h)).
  { enter h. open_monad. exec. now rewrite app_nil_r. }
  rewrite Hitems, (call_loop_int fp x d (int_terms_all_int _ Hi) Hn).
  reflexivity.
Qed.

Lemma test_heap_x_nonneg : nonneg_exponents [(1, PInt 1)].
Proof. repeat constructor; cbn; lia. Qed.

Lemma test_heap_2_nonneg :
  nonneg_exponents [(0, PInt 2); (1, PInt (-1)); (3, PInt 1)].
Proof. repeat constructor; cbn; lia. Qed.

(** X22: For two polynomials with int coefficients and exponents [>= 0],
    evaluated at an int: the sum evaluates to the sum of the two values,
    as an int, whatever the float power function is. *)
Theorem call_of_sum fp h p q v a b x :
  int_poly h p v a -> int_poly h q v b ->
  nonneg_exponents a -> nonneg_exponents b ->
  exists r h' y z,
    __add__ p (VRef q) h = (Ok r, h')
    /\ __call__ fp p (PInt x) h' = (Value (PInt y), h')
    /\ __call__ fp q (PInt x) h' = (Value (PInt z), h')
    /\ __call__ fp r (PInt x) h' = (Value (PInt (y + z)), h').
Proof.
  intros Hp Hq Hna Hnb.
  destruct (merge_value Z.add (SFadd prec emax) 1 h p q v a b
              ltac:(intros; lia) Hp Hq Hna Hnb)
    as (r & h' & d & Hrun & He & Hr & Hnd & Hval).
  exists r, h', (value a x), (value b x).
  split; [exact Hrun|].
  split; [apply (call_run fp h' p v a x (int_poly_extends _ _ _ _ _ He Hp) Hna)|].
  split; [apply (call_run fp h' q v b x (int_poly_extends _ _ _ _ _ He Hq) Hnb)|].
  rewrite (call_run fp h' r v d x Hr Hnd), Hval.
  replace (value a x + 1 * value b x) with (value a x + value b x) by lia.
  reflexivity.
Qed.

Lemma call_of_sum_witness :
  exists r h' y z,
    __add__ 1 (VRef 5) test_heap = (Ok r, h')
    /\ __call__ (fun _ _ => Raise ZeroDivisionError) 1 (PInt 3) h' = (Value (PInt y), h')
    /\ __call__ (fun _ _ => Raise ZeroDivisionError) 5 (PInt 3) h' = (Value (PInt z), h')
    /\ __call__ (fun _ _ => Raise ZeroDivisionError) r (PInt 3) h' = (Value (PInt (y + z)), h').
Proof.
  exact (call_of_sum (fun _ _ => Raise ZeroDivisionError) test_heap 1 5 "x" _ _ 3
           test_heap_x test_heap_2 test_heap_x_nonneg test_heap_2_nonneg).
Defined.

(** X23: Under the same conditions the difference evaluates to the
    difference of the two values. *)
Theorem call_of_difference fp h p q v a b x :
  int_poly h p v a -> int_poly h q v b ->
  nonneg_exponents a -> nonneg_exponents b ->
  exists r h' y z,
    __sub__ p (VRef q) h = (Ok r, h')
    /\ __call__ fp p (PInt x) h' = (Value (PInt y), h')
    /\ __call__ fp q (PInt x) h' = (Value (PInt z), h')
    /\ __call__ fp r (PInt x) h' = (Value (PInt (y - z)), h').
Proof.
  intros Hp Hq Hna Hnb.
  destruct (merge_value Z.sub (SFsub prec emax) (-1) h p q v a b
              ltac:(intros; lia) Hp Hq Hna Hnb)
    as (r & h' & d & Hrun & He & Hr & Hnd & Hval).
  exists r, h', (value a x), (value b x).
  split; [exact Hrun|].
  split; [apply (call_run fp h' p v a x (int_poly_extends _ _ _ _ _ He Hp) Hna)|].
  split; [apply (call_run fp h' q v b x (int_poly_extends _ _ _ _ _ He Hq) Hnb)|].
  rewrite (call_run fp h' r v d x Hr Hnd), Hval.
  replace (value a x + -1 * value b x) with (value a x - value b x) by lia.
  reflexivity.
Qed.

Lemma call_of_difference_witness :
  exists r h' y z,
    __sub__ 5 (VRef 1) test_heap = (Ok r, h')
    /\ __call__ (fun _ _ => Raise ZeroDivisionError) 5 (PInt 3) h' = (Value (PInt y), h')
    /\ __call__ (fun _ _ => Raise ZeroDivisionError) 1 (PInt 3) h' = (Value (PInt z), h')
    /\ __call__ (fun _ _ => Raise ZeroDivisionError) r (PInt 3) h' = (Value (PInt (y - z)), h').
Proof.
  exact (call_of_difference (fun _ _ => Raise ZeroDivisionError) test_heap 5 1 "x" _ _ 3
           test_heap_2 test_heap_x test_heap_2_nonneg test_heap_x_nonneg).
Defined.

(** X24: For two polynomials with int coefficients and exponents [>= 0],
    evaluated at an int, the product evaluates to the product of the
    two values. *)
Theorem call_of_product fp h p q v a b x :
  int_poly h p v a -> int_poly h q v b ->
  nonneg_exponents a -> nonneg_exponents b ->
  exists r h' y z,
    __mul__ p (VRef q) h = (Ok r, h')
    /\ __call__ fp p (PInt x) h' = (Value (PInt y), h')
    /\ __call__ fp q (PInt x) h' = (Value (PInt z), h')
    /\ __call__ fp r (PInt x) h' = (Value (PInt (y * z)), h').
Proof.
  intros Hp Hq Hna Hnb.
  destruct (mul_value h p q v a b Hp Hq Hna Hnb)
    as (r & h' & d & Hrun & He & Hr & Hnd & Hval).
  exists r, h', (value a x), (value b x).
  split; [exact Hrun|].
  split; [apply (call_run fp h' p v a x (int_poly_extends _ _ _ _ _ He Hp) Hna)|].
  split; [apply (call_run fp h' q v b x (int_poly_extends _ _ _ _ _ He Hq) Hnb)|].
  rewrite (call_run fp h' r v d x Hr Hnd), Hval. reflexivity.
Qed.

Lemma call_of_product_witness :
  exists r h' y z,
    __mul__ 5 (VRef 1) test_heap = (Ok r, h')
    /\ __call__ (fun _ _ => Raise ZeroDivisionError) 5 (PInt 3) h' = (Value (PInt y), h')
    /\ __call__ (fun _ _ => Raise ZeroDivisionError) 1 (PInt 3) h' = (Value (PInt z), h')
    /\ __call__ (fun _ _ => Raise ZeroDivisionError) r (PInt 3) h' = (Value (PInt (y * z)), h').
Proof.
  exact (call_of_product (fun _ _ => Raise ZeroDivisionError) test_heap 5 1 "x" _ _ 3
           test_heap_2 test_heap_x test_heap_2_nonneg test_heap_x_nonneg).
Defined.

(** The loop of [__pow__]. *)
Lemma repeat_mul_value k : forall h self ans v a dans,
  int_poly h self v a -> int_poly h ans v dans ->
  nonneg_exponents a -> nonneg_exponents dans ->
  exists r h' d,
    repeat_mul k self ans h = (Ok r, h')
    /\ extends h h'
    /\ int_poly h' r v d
    /\ nonneg_exponents d
    /\ forall x, value d x = value dans x * value a x ^ Z.of_nat k.
Proof.
  induction k as [|k IH]; intros h self ans v a dans Hs Ha Hna Hnd.
  - exists ans, h, dans. split; [reflexivity|].
    split; [exists []; now rewrite app_nil_r|].
    split; [exact Ha|]. split; [exact Hnd|]. intros x. cbn. lia.
  - destruct (mul_value h ans self v dans a Ha Hs Hnd Hna)
      as (r1 & h1 & d1 & Hrun1 & He1 & Hr1 & Hn1 & Hv1).
    destruct (IH h1 self r1 v a d1 (int_poly_extends _ _ _ _ _ He1 Hs)
                Hr1 Hna Hn1)
      as (r & h' & d & Hrun & He & Hr & Hn & Hv).
    exists r, h', d. cbn [repeat_mul]. unfold bind. rewrite Hrun1.
    split; [exact Hrun|].
    split; [eapply extends_trans; eauto|].
    split; [exact Hr|]. split; [exact Hn|].
    intros x. rewrite Hv, Hv1, Nat2Z.inj_succ, Z.pow_succ_r by lia. lia.
Qed.

(** X25: For a polynomial with int coefficients and exponents [>= 0], a
    power [P ** n] with [n >= 1] is a polynomial, and at an int it
    evaluates to the [n]-th power of the value of [P]. *)
Theorem call_of_power fp h p v a n x :
  int_poly h p v a -> nonneg_exponents a -> 1 <= n ->
  exists r h' y,
    __pow__ p (VInt n) h = (Ok (VRef r), h')
    /\ __call__ fp p (PInt x) h' = (Value (PInt y), h')
    /\ __call__ fp r (PInt x) h' = (Value (PInt (y ^ n)), h').
Proof.
  intros Hp Hna Hn. unfold __pow__.
  destruct (Z.eqb_spec n 0) as [|_]; [lia|].
  destruct (Z.ltb_spec n 0) as [|_]; [lia|].
  destruct (Z.eqb_spec n 1) as [->|Hn1].
  - exists p, h, (value a x). split; [reflexivity|].
    rewrite Z.pow_1_r. split; apply (call_run fp h p v a x Hp Hna).
  - destruct (repeat_mul_value (Z.to_nat (n - 1)) h p p v a a Hp Hp Hna Hna)
      as (r & h' & d & Hrun & He & Hr & Hnd & Hv).
    exists r, h', (value a x). unfold bind, ret. rewrite Hrun.
    split; [reflexivity|].
    split; [apply (call_run fp h' p v a x (int_poly_extends _ _ _ _ _ He Hp) Hna)|].
    rewrite (call_run fp h' r v d x Hr Hnd), Hv.
    rewrite Z2Nat.id by lia.
    replace n with (Z.succ (n - 1)) at 2 by lia.
    rewrite Z.pow_succ_r by lia. reflexivity.
Qed.

Lemma call_of_power_witness :
  exists r h' y,
    __pow__ 5 (VInt 3) test_heap = (Ok (VRef r), h')
    /\ __call__ (fun _ _ => Raise ZeroDivisionError) 5 (PInt 2) h' = (Value (PInt y), h')
    /\ __call__ (fun _ _ => Raise ZeroDivisionError) r (PInt 2) h' = (Value (PInt (y ^ 3)), h').
Proof.
  exact (call_of_power (fun _ _ => Raise ZeroDivisionError) test_heap 5 "x" _ 3 2
           test_heap_2 test_heap_2_nonneg ltac:(lia)).
Defined.

(** ** The degree of a product *)

Lemma degree_nonempty h self v d :
  is_poly h self v d -> d <> [] ->
  exists m,
    degree self h = (Ok m, h)
    /\ In m (map fst d)
    /\ forall k, In k (map fst d) -> k <= m.
Proof.
  intros (sd & Hs & Hsd) Hne.
  rewrite (degree_run h self (Some v) sd d Hs Hsd).
  destruct d as [|[k c] rest]; [congruence|].
  cbn [map fst py_max]. eexists. split; [reflexivity|].
  apply fold_max_spec.
Qed.

Lemma coeff_above d m k :
  (forall j, In j (map fst d) -> j <= m) -> m < k -> coeff d k = 0.
Proof.
  intros Hm Hk. destruct (Z.eq_dec (coeff d k) 0) as [Hz|Hz]; [exact Hz|].
  apply coeff_key, Hm in Hz. lia.
Qed.

Lemma conv_top a b m n :
  unique_keys a ->
  (forall j, In j (map fst a) -> j <= m) ->
  (forall j, In j (map fst b) -> j <= n) ->
  conv a b (m + n) = coeff b n * coeff a m.
Proof.
  intros Hu Ha Hb. rewrite <- (tally_unique a m Hu), <- zsum_map_scale.
  unfold conv. f_equal. apply map_ext_in. intros [p c] Hin. cbn [fst snd].
  assert (Hp : p <= m) by (apply Ha; now apply (in_map fst) in Hin).
  destruct (Z.eqb_spec p m) as [->|Hne].
  - replace (m + n - m) with n by lia. lia.
  - rewrite (coeff_above b n (m + n - p) Hb) by lia. lia.
Qed.

Lemma conv_bound a b m n k :
  (forall j, In j (map fst a) -> j <= m) ->
  (forall j, In j (map fst b) -> j <= n) ->
  conv a b k <> 0 -> k <= m + n.
Proof.
  intros Ha Hb Hc. unfold conv in Hc.
  apply zsum_nonzero in Hc. destruct Hc as ([p c] & Hin & Hne).
  cbn [fst snd] in Hne.
  assert (Hp : p <= m) by (apply Ha; now apply (in_map fst) in Hin).
  assert (Hq : k - p <= n) by (apply Hb, coeff_key; nia).
  lia.
Qed.

(** X26: The degree of the product of two non-zero polynomials with int
    coefficients is the sum of their degrees. *)
Theorem degree_of_product h p q v a b :
  int_poly h p v a -> int_poly h q v b -> a <> [] -> b <> [] ->
  exists m n r h',
    degree p h = (Ok m, h)
    /\ degree q h = (Ok n, h)
    /\ __mul__ p (VRef q) h = (Ok r, h')
    /\ degree r h' = (Ok (m + n), h').
Proof.
  intros Hp Hq Hane Hbne.
  destruct (degree_nonempty h p v a (proj1 Hp) Hane) as (m & Hdm & Hm & Hma).
  destruct (degree_nonempty h q v b (proj1 Hq) Hbne) as (n & Hdn & Hn & Hnb).
  destruct (mul_int h p q v a b Hp Hq)
    as (r & h' & d & Hrun & He & Hr & Hco).
  exists m, n, r, h'.
  split; [exact Hdm|]. split; [exact Hdn|]. split; [exact Hrun|].
  destruct Hp as (_ & Hua & Hia), Hq as (_ & Hub & Hib).
  assert (Htop : coeff d (m + n) <> 0).
  { rewrite Hco, (conv_top a b m n Hua Hma Hnb).
    pose proof (key_coeff a m Hia Hm). pose proof (key_coeff b n Hib Hn). nia. }
  destruct Hr as (Hrp & Hud & Hid).
  assert (Hdne : d <> []).
  { intros ->. apply Htop. reflexivity. }
  destruct (degree_nonempty h' r v d Hrp Hdne) as (m' & Hdr & Hm' & Hmax).
  rewrite Hdr. repeat f_equal.
  assert (m + n <= m') by (apply Hmax, coeff_key, Htop).
  assert (m' <= m + n).
  { apply (conv_bound a b m n m' Hma Hnb). rewrite <- Hco.
    now apply key_coeff. }
  lia.
Qed.

Lemma degree_of_product_witness :
  exists m n r h',
    degree 5 test_heap = (Ok m, test_heap)
    /\ degree 9 test_heap = (Ok n, test_heap)
    /\ __mul__ 5 (VRef 9) test_heap = (Ok r, h')
    /\ degree r h' = (Ok (m + n), h').
Proof.
  exact (degree_of_product test_heap 5 9 "x" _ _ test_heap_2 test_heap_3
           ltac:(discriminate) ltac:(discriminate)).
Defined.

(** ** Printing *)





























End PolynomialExtra.
